(** * Gem Puzzle (N-puzzle): states, successors, solvability, heuristic, harness

    A shallow embedding of [utils/gem_puzzle.py], [utils/dataset_creation.py]
    and [tests/lab_test.py].

    Python objects live in a store: a [GemPuzzleState] instance and the list
    its [tile_list] attribute points to are two separate mutable objects, and
    the code that builds successors relies on [copy.copy] to keep them apart.
    Functions that allocate or mutate are written in a small state-and-exception
    monad over that store; functions that only read a list are plain functions
    on [list Z]. *)

From Stdlib Require Import ZArith String.
From stdpp Require Import gmap list pretty.

Local Open Scope Z_scope.

(** ** Exceptions *)

(** The exceptions the modelled code can meet.  [BaseExceptionOnly]
    stands for the classes that derive from [BaseException] but not from
    [Exception] ([KeyboardInterrupt], [SystemExit], ...); [OtherException] for
    any further instance of [Exception] a caller-supplied function may raise.
    The [__str__] of such an object is code of the caller's as well:
    [str_raises] is the exception it raises when called, [None] when it
    returns the text. *)
#[local] Set Warnings "-register-all".
Inductive exn : Type :=
  | ValueError (msg : string)
  | TypeError
  | ZeroDivisionError
  | IndexError
  | AttributeError
  | KeyError
  | OtherException (name : string) (str_raises : option exn)
  | BaseExceptionOnly (name : string).

(** [isinstance(e, Exception)] *)
Definition is_Exception (e : exn) : bool :=
  match e with
  | BaseExceptionOnly _ => false
  | _ => true
  end.

Inductive result (A : Type) : Type :=
  | Ok (a : A)
  | Raise (e : exn).
Arguments Ok {A} a.
Arguments Raise {A} e.

(** ** The object store *)

Definition loc := nat.

(** An instance of [GemPuzzleState].  [size] and [blank_pos] hold an int or
    Python's [None]; [tile_list] is [None] while the attribute has not been
    assigned (reading it then raises [AttributeError]), and otherwise the
    address of a list object.  [__init__] assigns [size] and [blank_pos]
    before anything reads them, so for these two the record does not tell
    "not assigned yet" from [None]. *)
Record GemPuzzleState : Type := mkState {
  size : option Z;
  tile_list : option loc;
  blank_pos : option Z
}.

Inductive obj : Type :=
  | ListObj (items : list Z)
  | StateObj (s : GemPuzzleState).

Abbreviation heap := (gmap loc obj).

(** ** The monad: state passing with exceptions.  The state survives a raise. *)

Definition ST (S A : Type) : Type := S → result A * S.

Definition ret {S A} (a : A) : ST S A := λ s, (Ok a, s).
Definition raise {S A} (e : exn) : ST S A := λ s, (Raise e, s).
Definition bind {S A B} (m : ST S A) (k : A → ST S B) : ST S B :=
  λ s, match m s with
       | (Ok a, s') => k a s'
       | (Raise e, s') => (Raise e, s')
       end.

Declare Scope py_scope.
Delimit Scope py_scope with py.
Notation "x <- m ;; k" := (bind m (λ x, k))
  (at level 100, m at next level, right associativity) : py_scope.
Notation "m ;; k" := (bind m (λ _, k))
  (at level 100, right associativity) : py_scope.
Local Open Scope py_scope.

(** Lifting a pure computation that may raise. *)
Definition lift {S A} (r : result A) : ST S A := λ s, (r, s).

(** A [for] loop over a sequence that the body does not change. *)
Fixpoint for_each {S A B} (body : B → A → ST S B) (l : list A) (acc : B)
    : ST S B :=
  match l with
  | [] => ret acc
  | x :: l' => acc' <- body acc x ;; for_each body l' acc'
  end.

(** [enumerate(l)] *)
Definition enumerate {A} (l : list A) : list (nat * A) := imap pair l.

(** Computations over the object store. *)
Abbreviation M := (ST heap).

(** Allocation at an unused address. *)
Definition alloc (o : obj) : M loc :=
  λ h, let l := fresh (dom h) in (Ok l, <[l := o]> h).

(** Reading and writing instance attributes. *)
Definition get_state (self : loc) : M GemPuzzleState :=
  λ h, match h !! self with
       | Some (StateObj s) => (Ok s, h)
       | _ => (Raise AttributeError, h)
       end.

Definition put_state (self : loc) (s : GemPuzzleState) : M unit :=
  λ h, (Ok tt, <[self := StateObj s]> h).

Definition get_size (self : loc) : M (option Z) :=
  s <- get_state self ;; ret (size s).

Definition get_blank_pos (self : loc) : M (option Z) :=
  s <- get_state self ;; ret (blank_pos s).

Definition get_tile_list (self : loc) : M loc :=
  s <- get_state self ;;
  match tile_list s with
  | Some l => ret l
  | None => raise AttributeError
  end.

Definition set_size (self : loc) (v : option Z) : M unit :=
  s <- get_state self ;; put_state self (mkState v (tile_list s) (blank_pos s)).

Definition set_tile_list (self : loc) (l : loc) : M unit :=
  s <- get_state self ;; put_state self (mkState (size s) (Some l) (blank_pos s)).

Definition set_blank_pos (self : loc) (v : option Z) : M unit :=
  s <- get_state self ;; put_state self (mkState (size s) (tile_list s) v).

(** Reading a list object. *)
Definition get_list (l : loc) : M (list Z) :=
  λ h, match h !! l with
       | Some (ListObj items) => (Ok items, h)
       | _ => (Raise TypeError, h)
       end.

(** ** Python built-ins on ints and lists *)

(** An operand that must be an int: [None] raises [TypeError]. *)
Definition as_int (v : option Z) : result Z :=
  match v with
  | Some z => Ok z
  | None => Raise TypeError
  end.

(** [a // b] and [a % b]: floor division, as [Z.div] and [Z.modulo]. *)
Definition floordiv (a b : Z) : result Z :=
  if decide (b = 0) then Raise ZeroDivisionError else Ok (a `div` b).

Definition pymod (a b : Z) : result Z :=
  if decide (b = 0) then Raise ZeroDivisionError else Ok (a `mod` b).

(** [len(l)] *)
Definition len (l : list Z) : Z := Z.of_nat (length l).

(** [int(n ** 0.5)] and [int(math.sqrt(n))] for a list length [n]: the
    integer square root.  The float square root of a perfect square [k * k]
    below [2 ^ 53] is [k] exactly, and for any other [n] the only use the code
    makes of the result is to compare its square with [n]. *)
Definition isqrt (n : Z) : Z := Z.sqrt n.

(** The position of the first occurrence of [v] in [l], if any. *)
Fixpoint index (v : Z) (l : list Z) : option nat :=
  match l with
  | [] => None
  | x :: l' => if decide (x = v) then Some O else S <$> index v l'
  end.

(** [l.index(v)]; the message of the [ValueError] names the value looked
    for, as [repr] prints it. *)
Definition list_index (l : list Z) (v : Z) : result Z :=
  match index v l with
  | Some i => Ok (Z.of_nat i)
  | None => Raise (ValueError (pretty v +:+ " is not in list"))
  end.

(** [v in l] *)
Definition contains (v : Z) (l : list Z) : bool := bool_decide (v ∈ l).

(** Subscripts: a negative index counts from the end, anything outside
    [-len, len) raises [IndexError]. *)
Definition subscript (l : list Z) (i : Z) : result nat :=
  if decide (0 ≤ i < len l) then Ok (Z.to_nat i)
  else if decide (- len l ≤ i < 0) then Ok (Z.to_nat (len l + i))
  else Raise IndexError.

(** [l[i]] *)
Definition list_getitem (l : loc) (i : Z) : M Z :=
  items <- get_list l ;;
  k <- lift (subscript items i) ;;
  match items !! k with
  | Some v => ret v
  | None => raise IndexError
  end.

(** [l[i] = v], in place. *)
Definition list_setitem (l : loc) (i : Z) (v : Z) : M unit :=
  items <- get_list l ;;
  k <- lift (subscript items i) ;;
  λ h, (Ok tt, <[l := ListObj (<[k := v]> items)]> h).

(** [copy.copy(l)]: a new list object with the same items. *)
Definition copy_list (l : loc) : M loc :=
  items <- get_list l ;; alloc (ListObj items).

(** ** [GemPuzzleState.__init__] *)

Definition msg_shape : string := "Tile list size should be a perfect square.".
Definition msg_blank : string :=
  "State should contain max value indicating the blank tile's position.".

Definition GemPuzzleState_init (tile_list : option loc) : M loc :=
  self <- alloc (StateObj (mkState None None None)) ;;
  match tile_list with
  | None =>
      set_size self None ;;
      set_blank_pos self None ;;
      ret self
  | Some tl =>
      set_tile_list self tl ;;
      items <- get_list tl ;;
      set_size self (Some (isqrt (len items))) ;;
      sz <- (v <- get_size self ;; lift (as_int v)) ;;
      if decide (len items ≠ sz ^ 2) then raise (ValueError msg_shape)
      else
        sz <- (v <- get_size self ;; lift (as_int v)) ;;
        let blank_value := sz ^ 2 in
        stl <- get_tile_list self ;;
        sitems <- get_list stl ;;
        bp <- (if contains blank_value sitems
               then lift (list_index sitems blank_value)
               else ret (-1)) ;;
        set_blank_pos self (Some bp) ;;
        bp' <- (v <- get_blank_pos self ;; lift (as_int v)) ;;
        if decide (bp' = -1) then raise (ValueError msg_blank)
        else ret self
  end.

(** ** [__hash__] and [__eq__] *)

(** [str(l)] for a list of ints: ["[1, 2, 3]"]. *)
Definition str_list (l : list Z) : string :=
  "[" +:+ String.concat ", " (pretty <$> l) +:+ "]".

Section Hashing.

(** The built-in [hash] on [str] objects: fixed for the life of a process,
    otherwise unspecified. *)
Variable str_hash : string → Z.

Definition GemPuzzleState_hash (self : loc) : M Z :=
  tl <- get_tile_list self ;;
  items <- get_list tl ;;
  ret (str_hash (str_list items)).

(** [hash(self) == hash(other) and self.tile_list == other.tile_list];
    [and] does not evaluate its right operand when the left one is false. *)
Definition GemPuzzleState_eq (self other : loc) : M bool :=
  h1 <- GemPuzzleState_hash self ;;
  h2 <- GemPuzzleState_hash other ;;
  if decide (h1 = h2) then
    tl1 <- get_tile_list self ;;
    items1 <- get_list tl1 ;;
    tl2 <- get_tile_list other ;;
    items2 <- get_list tl2 ;;
    ret (bool_decide (items1 = items2))
  else ret false.

End Hashing.

(** ** [get_successors] *)

Definition delta : list (Z * Z) := [(0, 1); (1, 0); (0, -1); (-1, 0)].

(** One pass through the body of the [for dx, dy in delta] loop. *)
Definition successors_body (state : loc) (successors : list loc)
    (d : Z * Z) : M (list loc) :=
  let '(dx, dy) := d in
  bp <- (v <- get_blank_pos state ;; lift (as_int v)) ;;
  sz <- (v <- get_size state ;; lift (as_int v)) ;;
  row <- lift (floordiv bp sz) ;;
  bp <- (v <- get_blank_pos state ;; lift (as_int v)) ;;
  sz <- (v <- get_size state ;; lift (as_int v)) ;;
  col <- lift (pymod bp sz) ;;
  let row := row + dx in
  let col := col + dy in
  sz <- (v <- get_size state ;; lift (as_int v)) ;;
  if bool_decide (0 ≤ row < sz) && bool_decide (0 ≤ col < sz) then
    new_state <- GemPuzzleState_init None ;;
    sz <- get_size state ;;
    set_size new_state sz ;;
    tl <- get_tile_list state ;;
    tl' <- copy_list tl ;;
    set_tile_list new_state tl' ;;
    sz <- (v <- get_size state ;; lift (as_int v)) ;;
    set_blank_pos new_state (Some (row * sz + col)) ;;
    ntl <- get_tile_list new_state ;;
    nbp <- (v <- get_blank_pos new_state ;; lift (as_int v)) ;;
    moved <- list_getitem ntl nbp ;;
    ntl <- get_tile_list new_state ;;
    sbp <- (v <- get_blank_pos state ;; lift (as_int v)) ;;
    list_setitem ntl sbp moved ;;
    ntl <- get_tile_list new_state ;;
    nbp <- (v <- get_blank_pos new_state ;; lift (as_int v)) ;;
    sz <- (v <- get_size state ;; lift (as_int v)) ;;
    list_setitem ntl nbp (sz ^ 2) ;;
    ret (successors ++ [new_state])
  else ret successors.

Definition get_successors (state : loc) : M (list loc) :=
  for_each (successors_body state) delta [].

(** ** [is_solvable] *)

(** [[(i, v) for i, v in enumerate(tile_list) if v != len(tile_list)]] *)
Definition puzzle_except_empty (tile_list : list Z) : list (nat * Z) :=
  filter (λ p, p.2 ≠ len tile_list) (enumerate tile_list).

(** The inner loop: [for j, next_tile in puzzle_except_empty[idx + 1:]]. *)
Definition inner_loop (tile : Z) (rest : list (nat * Z)) (inversions : Z) : Z :=
  fold_left (λ inversions '(j, next_tile),
               if decide (next_tile < tile) then inversions + 1 else inversions)
            rest inversions.

(** The outer loop: [for idx, (i, tile) in enumerate(puzzle_except_empty)]. *)
Definition count_inversions (pee : list (nat * Z)) : Z :=
  fold_left (λ inversions '(idx, (i, tile)),
               inner_loop tile (drop (S idx) pee) inversions)
            (enumerate pee) 0.

Definition is_solvable (tile_list : list Z) : result bool :=
  let inversions := count_inversions (puzzle_except_empty tile_list) in
  let size := isqrt (len tile_list) in
  if bool_decide (size `mod` 2 ≠ 0) && bool_decide (inversions `mod` 2 = 0)
  then Ok true
  else if decide (size `mod` 2 = 0) then
    match list_index tile_list (len tile_list) with
    | Raise e => Raise e
    | Ok blank_index =>
        match floordiv blank_index size with
        | Raise e => Raise e
        | Ok q =>
            let empty_row := size - q in
            Ok (eqb (bool_decide (empty_row `mod` 2 ≠ 0))
                    (bool_decide (inversions `mod` 2 = 0)))
        end
    end
  else Ok false.

(** ** [manhattan_distance] *)

(** [{tile: pos2 for pos2, tile in enumerate(l) if tile != blank_value}]: a
    later occurrence of a key replaces an earlier one. *)
Definition positions_dict (blank_value : Z) (l : list Z) : gmap Z nat :=
  fold_left (λ d '(pos2, tile),
               if decide (tile ≠ blank_value) then <[tile := pos2]> d else d)
            (enumerate l) ∅.

(** [d[k]] *)
Definition dict_getitem (d : gmap Z nat) (k : Z) : result Z :=
  match d !! k with
  | Some v => Ok (Z.of_nat v)
  | None => Raise KeyError
  end.

(** The body of [for pos1, tile in enumerate(state1.tile_list)]. *)
Definition distance_body (size : option Z) (blank_value : Z)
    (positions : gmap Z nat) (dist_sum : Z) (p : nat * Z) : M Z :=
  let '(pos1, tile) := p in
  if decide (tile ≠ blank_value) then
    pos2 <- lift (dict_getitem positions tile) ;;
    sz <- lift (as_int size) ;;
    r1 <- lift (floordiv (Z.of_nat pos1) sz) ;;
    r2 <- lift (floordiv pos2 sz) ;;
    let di := Z.abs (r1 - r2) in
    c1 <- lift (pymod (Z.of_nat pos1) sz) ;;
    c2 <- lift (pymod pos2 sz) ;;
    let dj := Z.abs (c1 - c2) in
    ret (dist_sum + (di + dj))
  else ret dist_sum.

Definition manhattan_distance (state1 state2 : loc) : M Z :=
  size <- get_size state1 ;;
  tl1 <- get_tile_list state1 ;;
  items1 <- get_list tl1 ;;
  let blank_value := len items1 in
  tl2 <- get_tile_list state2 ;;
  items2 <- get_list tl2 ;;
  let positions := positions_dict blank_value items2 in
  tl1 <- get_tile_list state1 ;;
  items1 <- get_list tl1 ;;
  for_each (distance_body size blank_value positions) (enumerate items1) 0.

(** ** [get_manhattan_distance] and [is_acceptable_task] *)

(** The goal list [list(range(1, len(tile_list) + 1))] is a new list object;
    the start state refers to the caller's list. *)
Definition get_manhattan_distance (tile_list : loc) : M Z :=
  items <- get_list tile_list ;;
  goal_tile_list <- alloc (ListObj (seqZ 1 (len items))) ;;
  start_state <- GemPuzzleState_init (Some tile_list) ;;
  goal_state <- GemPuzzleState_init (Some goal_tile_list) ;;
  manhattan_distance start_state goal_state.

(** [max_distance] is 12 when the caller gives none. *)
Definition is_acceptable_task (tile_list : loc) (max_distance : Z) : M bool :=
  items <- get_list tile_list ;;
  solvable <- lift (is_solvable items) ;;
  if negb solvable then ret false
  else
    distance <- get_manhattan_distance tile_list ;;
    if decide (distance > max_distance) then ret false
    else ret true.

(** ** [generate_random_tile_list] *)

Section Shuffle.

(** What one call of [random.shuffle] makes of a list of the given contents;
    that it is a rearrangement is a hypothesis where it is needed. *)
Variable shuffle : list Z → list Z.

(** [shuffle(l)]: the list object is rearranged in place. *)
Definition list_shuffle (l : loc) : M unit :=
  items <- get_list l ;;
  λ h, (Ok tt, <[l := ListObj (shuffle items)]> h).

(** [[i + 1 for i in range(size**2)]], shuffled in place. *)
Definition generate_random_tile_list (size : Z) : M loc :=
  tile_list <- alloc (ListObj ((λ i, i + 1) <$> seqZ 0 (size ^ 2))) ;;
  list_shuffle tile_list ;;
  ret tile_list.

End Shuffle.

(** ** [massive_test] *)

(** [f"{e}"]: formatting an exception calls its [__str__].  The exceptions
    the interpreter and the modelled code raise always format; one of the
    caller's own raises what its [__str__] raises. *)
Definition format_exn (e : exn) : result unit :=
  match e with
  | OtherException _ (Some e') => Raise e'
  | _ => Ok tt
  end.

(** [try: body except Exception as e: handler(e)] *)
Definition try_except {S A} (body : ST S A) (handler : exn → ST S A)
    : ST S A :=
  λ s, match body s with
       | (Raise e, s') =>
           if is_Exception e then handler e s' else (Raise e, s')
       | r => r
       end.

Section Harness.

(** The numbers a search algorithm reports, and the float [0.0]. *)
Variable V : Type.
Variable float_zero : V.

(** What [search_function(start_state, goal_state, *args)] hands back once
    unpacked into four names.  [last_state_g] is [None] when [last_state]
    has no attribute [g] (for instance when it is Python's [None]). *)
Record search_return : Type := mkReturn {
  found : bool;
  last_state_g : option V;
  number_of_steps : V;
  search_tree_size : V
}.

(** The search algorithm under test, with [*args] already supplied: any
    computation over the object store; a raise stands for an exception of
    the call or of the unpacking of its result. *)
Variable search_function : loc → loc → M search_return.

(** Built-ins on [str]: [not line.strip()] and
    [list(map(int, line.split()))]. *)
Variable is_blank_line : string → bool.
Variable parse_ints : string → result (list Z).

(** What the harness acts on: the object store, the three lists of the
    [stat] dictionary, and the reports written to standard output (task
    number and exception). *)
Record harness : Type := mkHarness {
  store : heap;
  stat_len : list V;
  stat_st_size : list V;
  stat_steps : list V;
  printed : list (nat * exn)
}.

Definition on_store {A} (m : M A) : ST harness A :=
  λ s, let '(r, h') := m (store s) in
       (r, mkHarness h' (stat_len s) (stat_st_size s) (stat_steps s)
                     (printed s)).

Definition append_len (v : V) : ST harness unit :=
  λ s, (Ok tt, mkHarness (store s) (stat_len s ++ [v]) (stat_st_size s)
                         (stat_steps s) (printed s)).

Definition append_st_size (v : V) : ST harness unit :=
  λ s, (Ok tt, mkHarness (store s) (stat_len s) (stat_st_size s ++ [v])
                         (stat_steps s) (printed s)).

Definition append_steps (v : V) : ST harness unit :=
  λ s, (Ok tt, mkHarness (store s) (stat_len s) (stat_st_size s)
                         (stat_steps s ++ [v]) (printed s)).

(** The handler: [print(f"Task: #{task_num}. Execution error: {e}")] and
    [traceback.print_exc()].  The f-string is evaluated first, and an
    exception of [e.__str__()] leaves the handler before anything is printed.
    [printed] keeps the exception in place of its text; [print_exc] writes
    to standard error only, and substitutes a fixed text where [__str__]
    fails.  Writing to the two streams is taken to succeed. *)
Definition print_error (task_num : nat) (e : exn) : ST harness unit :=
  lift (format_exn e) ;;
  λ s, (Ok tt, mkHarness (store s) (stat_len s) (stat_st_size s)
                         (stat_steps s) (printed s ++ [(task_num, e)])).

(** [stat = {"len": [], "st_size": [], "steps": []}] *)
Definition new_stat : ST harness unit :=
  λ s, (Ok tt, mkHarness (store s) [] [] [] (printed s)).

(** The body of [for task_num, line in enumerate(tasks_file)]. *)
Definition task (_ : unit) (p : nat * string) : ST harness unit :=
  let '(task_num, line) := p in
  if is_blank_line line then ret tt
  else
    tiles <- lift (parse_ints line) ;;
    start_tile_list <- on_store (alloc (ListObj tiles)) ;;
    items <- on_store (get_list start_tile_list) ;;
    goal_tile_list <- on_store (alloc (ListObj (seqZ 1 (len items)))) ;;
    start_state <- on_store (GemPuzzleState_init (Some start_tile_list)) ;;
    goal_state <- on_store (GemPuzzleState_init (Some goal_tile_list)) ;;
    try_except
      (r <- on_store (search_function start_state goal_state) ;;
       (if found r then
          match last_state_g r with
          | Some g => append_len g
          | None => raise AttributeError
          end
        else append_len float_zero) ;;
       append_st_size (search_tree_size r) ;;
       append_steps (number_of_steps r))
      (λ e, print_error task_num e).

(** The result is the three sequences of the returned dictionary, in the
    order of its keys ["len"], ["st_size"], ["steps"]; [np.array] keeps their
    elements and order. *)
Definition massive_test (tasks_file : list string)
    : ST harness (list V * list V * list V) :=
  new_stat ;;
  for_each task (enumerate tasks_file) tt ;;
  λ s, (Ok (stat_len s, stat_st_size s, stat_steps s), s).

End Harness.

(** * Specification vocabulary *)

(** The definitions below are not translations of code: they are the words
    in which the properties of the code are stated, and the functions the
    proofs compare the loops with. *)

Definition perfect_square (n : Z) : Prop := ∃ k, 0 ≤ k ∧ k * k = n.

(** The cell the blank reaches in direction [(dx, dy)], when it stays on the
    board. *)
Definition target (n bp : Z) (d : Z * Z) : option Z :=
  let row := bp `div` n + d.1 in
  let col := bp `mod` n + d.2 in
  if bool_decide (0 ≤ row < n) && bool_decide (0 ≤ col < n)
  then Some (row * n + col) else None.

(** The tiles after the blank at [bp] and the tile at [d] changed places. *)
Definition slide (n : Z) (items : list Z) (bp d : Z) : list Z :=
  <[Z.to_nat d := n ^ 2]>
    (<[Z.to_nat bp := default 0 (items !! Z.to_nat d)]> items).

(** What a run of the loop leaves in the store for one successor: [p.1] is
    the new state object and [p.2] its tile list, both at addresses unused
    before the call. *)
Definition successor_at (h h' : gmap loc obj) (n : Z) (items : list Z)
    (bp : Z) (p : loc * loc) (t : Z) : Prop :=
  h !! p.1 = None ∧ h !! p.2 = None ∧
  h' !! p.1 = Some (StateObj (mkState (Some n) (Some p.2) (Some t))) ∧
  h' !! p.2 = Some (ListObj (slide n items bp t)).

(** The invariants of a puzzle state held in the store. *)
Record valid_state (h : gmap loc obj) (state : loc) (n : Z) (tl : loc)
    (items : list Z) (bp : Z) : Prop := mkValid {
  valid_obj :
    h !! state = Some (StateObj (mkState (Some n) (Some tl) (Some bp)));
  valid_list : h !! tl = Some (ListObj items);
  valid_size : 2 ≤ n;
  valid_perm : items ≡ₚ seqZ 1 (n * n);
  valid_blank_pos : 0 ≤ bp;
  valid_blank : items !! Z.to_nat bp = Some (n * n)
}.

(** Two cells of the board that share a side. *)
Definition adjacent (n a b : Z) : Prop :=
  0 ≤ a < n * n ∧ 0 ≤ b < n * n ∧
  Z.abs (a `div` n - b `div` n) + Z.abs (a `mod` n - b `mod` n) = 1.

(** [l'] is [l] with the entries at [i] and [j] exchanged. *)
Definition swapped (l l' : list Z) (i j : nat) : Prop :=
  i ≠ j ∧ is_Some (l !! i) ∧ is_Some (l !! j) ∧
  length l' = length l ∧
  l' !! i = l !! j ∧ l' !! j = l !! i ∧
  ∀ k, k ≠ i → k ≠ j → l' !! k = l !! k.

(** The cells the blank can reach, in the order of [delta]. *)
Definition targets (n bp : Z) : list Z := omap (target n bp) delta.

(** Moves along one axis from coordinate [x] of a board of width [n]. *)
Definition axis_moves (n x : Z) : nat :=
  if decide (x = 0 ∨ x = n - 1) then 1%nat else 2%nat.

(** The tile sequence with the blank of an [n] x [n] board removed. *)
Definition without_blank (n : Z) (tiles : list Z) : list Z :=
  filter (λ v, v ≠ n * n) tiles.

(** The number of pairs of positions [i < j] of [s] with [s[j] < s[i]]. *)
Definition inversions_spec (s : list Z) : nat :=
  sum_list_with
    (λ i, length (filter (λ j, (i < j)%nat ∧ s !!! j < s !!! i)
                         (seq 0 (length s))))
    (seq 0 (length s)).

(** The same count by recursion on the sequence. *)
Fixpoint inversions_rec (s : list Z) : nat :=
  match s with
  | [] => 0%nat
  | x :: s' => (length (filter (λ y : Z, (y < x)%Z) s') + inversions_rec s')%nat
  end.

(** Row distance plus column distance of cells [p] and [q]. *)
Definition cell_dist (n p q : Z) : Z :=
  Z.abs (p `div` n - q `div` n) + Z.abs (p `mod` n - q `mod` n).

(** The position of tile [t] in [l]. *)
Definition pos_in (l : list Z) (t : Z) : Z :=
  Z.of_nat (default 0%nat (index t l)).

(** What one tile adds to the distance between the boards [l1] and [l2]. *)
Definition tile_dist (n : Z) (l1 l2 : list Z) (t : Z) : Z :=
  if decide (t ≠ n * n) then cell_dist n (pos_in l1 t) (pos_in l2 t) else 0.

(** The sum of a list of integers. *)
Definition sumZ (l : list Z) : Z := foldr Z.add 0 l.

(** ** The harness: implicit arguments and the parts of its loop *)

Arguments mkReturn {V}.
Arguments found {V}.
Arguments last_state_g {V}.
Arguments number_of_steps {V}.
Arguments search_tree_size {V}.
Arguments mkHarness {V}.
Arguments store {V}.
Arguments stat_len {V}.
Arguments stat_st_size {V}.
Arguments stat_steps {V}.
Arguments printed {V}.
Arguments on_store {V A}.
Arguments print_error {V}.
Arguments new_stat {V}.

(** The statements of the loop body between the parsing of a line and the
    [try]: both tile lists and both states are built. *)
Definition prepare (tiles : list Z) : M (loc * loc) :=
  start_tile_list <- alloc (ListObj tiles) ;;
  items <- get_list start_tile_list ;;
  goal_tile_list <- alloc (ListObj (seqZ 1 (len items))) ;;
  start_state <- GemPuzzleState_init (Some start_tile_list) ;;
  goal_state <- GemPuzzleState_init (Some goal_tile_list) ;;
  ret (start_state, goal_state).

Section HarnessDefs.
Context {V : Type}.
Variable float_zero : V.
Variable search_function : loc → loc → M (search_return V).
Variable is_blank_line : string → bool.
Variable parse_ints : string → result (list Z).

(** The loop over the lines numbered from [first] on. *)
Definition run_tasks (first : nat) (lines : list string)
    : ST (harness V) unit :=
  for_each (task V float_zero search_function is_blank_line parse_ints)
           (imap (λ i line, ((first + i)%nat, line)) lines) tt.

(** The value [massive_test] returns. *)
Definition collect : ST (harness V) (list V * list V * list V) :=
  λ s, (Ok (stat_len s, stat_st_size s, stat_steps s), s).





End HarnessDefs.

(** ** Concrete stores and harness parameters for the examples *)

(** A 2 x 2 board in the store: the goal ordering, blank in the last cell. *)
Definition store2 : gmap loc obj :=
  <[1%nat := StateObj (mkState (Some 2) (Some 0%nat) (Some 3))]>
    {[0%nat := ListObj [1; 2; 3; 4]]}.

(** The same store with a second board, [1 2 / _ 3], at address 3. *)
Definition store3 : gmap loc obj :=
  <[3%nat := StateObj (mkState (Some 2) (Some 2%nat) (Some 2))]>
    (<[2%nat := ListObj [1; 2; 4; 3]]> store2).

Definition demo_hash (s : string) : Z := Z.of_nat (String.length s).

(** A search function that fails on boards whose first tile is 2. *)
Definition demo_search (start goal : loc) : M (search_return Z) :=
  tl <- get_tile_list start ;;
  first <- list_getitem tl 0 ;;
  if decide (first = 2) then raise (OtherException "search failed" None)
  else ret (mkReturn true (Some 5) 7 9).

Definition demo_blank (line : string) : bool := bool_decide (line = EmptyString).

Definition demo_parse (line : string) : result (list Z) :=
  if decide (line = "1 2 3 4") then Ok [1; 2; 3; 4]
  else if decide (line = "2 1 3 4") then Ok [2; 1; 3; 4]
  else Raise (ValueError "invalid literal for int()").

Definition demo_harness : harness Z := mkHarness ∅ [] [] [] [].

Definition demo_error : exn := OtherException "search failed" None.

(** ** Vocabulary of the further properties *)

(** The four cells next to [bp] in the order of [delta]: right, below, left,
    above. *)
Definition neighbours (n bp : Z) : list Z := [bp + 1; bp + n; bp - 1; bp - n].

Global Instance adjacent_dec n a b : Decision (adjacent n a b).
Proof. unfold adjacent. apply _. Defined.

(** A store with two boards of which the second lacks tile 3. *)
Definition store_missing : gmap loc obj :=
  <[3%nat := StateObj (mkState (Some 2) (Some 2%nat) (Some 3))]>
    (<[2%nat := ListObj [1; 2; 5; 4]]> store2).

(** The three statistics lists have one length. *)
Definition aligned {V} (s : harness V) : Prop :=
  length (stat_len s) = length (stat_st_size s) ∧
  length (stat_st_size s) = length (stat_steps s).

(** The harness state with another object store. *)
Definition with_store {V} (h : gmap loc obj) (s : harness V) : harness V :=
  mkHarness h (stat_len s) (stat_st_size s) (stat_steps s) (printed s).

(** What one pass through the loop body does to the statistics, whatever
    its outcome: nothing, or one element more in each list. *)
Definition task_effect {V} (s s' : harness V) : Prop :=
  (stat_len s' = stat_len s ∧ stat_st_size s' = stat_st_size s ∧
   stat_steps s' = stat_steps s) ∨
  (∃ a b c, stat_len s' = stat_len s ++ [a] ∧
            stat_st_size s' = stat_st_size s ++ [b] ∧
            stat_steps s' = stat_steps s ++ [c]).

(** A search function that is interrupted on boards whose first tile is 2. *)
Definition demo_interrupted (start goal : loc) : M (search_return Z) :=
  tl <- get_tile_list start ;;
  first <- list_getitem tl 0 ;;
  if decide (first = 2) then raise (BaseExceptionOnly "KeyboardInterrupt")
  else ret (mkReturn true (Some 5) 7 9).

(** A search function that fails, on boards whose first tile is 2, with an
    exception whose [__str__] raises [TypeError]. *)
Definition demo_unprintable (start goal : loc) : M (search_return Z) :=
  tl <- get_tile_list start ;;
  first <- list_getitem tl 0 ;;
  if decide (first = 2)
  then raise (OtherException "SearchError" (Some TypeError))
  else ret (mkReturn true (Some 5) 7 9).

(** A search function that reports success without a terminal node. *)
Definition demo_no_node (start goal : loc) : M (search_return Z) :=
  ret (mkReturn true None 7 9).

Definition demo_parse_bad (line : string) : result (list Z) :=
  if decide (line = "1 2 3") then Ok [1; 2; 3] else demo_parse line.

(** Pairs [(x, y)] with [x] in [a], [y] in [b] and [y < x]. *)
Fixpoint cross (a b : list Z) : nat :=
  match a with
  | [] => 0%nat
  | x :: a' => (length (filter (λ y : Z, (y < x)%Z) b) + cross a' b)%nat
  end.

(** [reachable h s h' s']: starting from state [s] in store [h], repeated
    calls of [get_successors], each on a state returned by the call before,
    lead to state [s'] in store [h']. *)
Inductive reachable (h : gmap loc obj) (s : loc)
    : gmap loc obj → loc → Prop :=
  | reach_here : reachable h s h s
  | reach_move h1 s1 succs h2 s2 :
      reachable h s h1 s1 →
      get_successors s1 h1 = (Ok succs, h2) →
      s2 ∈ succs →
      reachable h s h2 s2.

(** * Proofs *)

(** ** Running a computation step by step *)

Section Run.
Context {S : Type}.

Lemma bind_run {A B} (m : ST S A) (k : A → ST S B) s a s' :
  m s = (Ok a, s') → bind m k s = k a s'.
Proof. unfold bind. by intros ->. Qed.

Lemma bind_fail {A B} (m : ST S A) (k : A → ST S B) s e s' :
  m s = (Raise e, s') → bind m k s = (Raise e, s').
Proof. unfold bind. by intros ->. Qed.

Lemma bind_assoc {A B C} (m : ST S A) (f : A → ST S B) (g : B → ST S C) s :
  bind (bind m f) g s = bind m (λ x, bind (f x) g) s.
Proof. unfold bind. by destruct (m s) as [[a|e] s']. Qed.

Lemma bind_lift_ok {A B} (a : A) (k : A → ST S B) s :
  bind (lift (Ok a)) k s = k a s.
Proof. reflexivity. Qed.

Lemma bind_ret {A B} (a : A) (k : A → ST S B) s :
  bind (ret a) k s = k a s.
Proof. reflexivity. Qed.
End Run.

Lemma fresh_None (h : gmap loc obj) : h !! fresh (dom h) = None.
Proof. apply not_elem_of_dom, is_fresh. Qed.

(** ** The store primitives *)

Section Store.
Implicit Types (h : gmap loc obj) (l self : loc) (st : GemPuzzleState).

Lemma get_state_run h self st :
  h !! self = Some (StateObj st) → get_state self h = (Ok st, h).
Proof. unfold get_state. by intros ->. Qed.

Lemma get_size_run h self st :
  h !! self = Some (StateObj st) → get_size self h = (Ok (size st), h).
Proof. intros H. unfold get_size. by rewrite (bind_run _ _ _ _ _ (get_state_run _ _ _ H)). Qed.

Lemma get_blank_pos_run h self st :
  h !! self = Some (StateObj st) →
  get_blank_pos self h = (Ok (blank_pos st), h).
Proof. intros H. unfold get_blank_pos. by rewrite (bind_run _ _ _ _ _ (get_state_run _ _ _ H)). Qed.

Lemma get_tile_list_run h self st tl :
  h !! self = Some (StateObj st) → tile_list st = Some tl →
  get_tile_list self h = (Ok tl, h).
Proof.
  intros H Htl. unfold get_tile_list.
  rewrite (bind_run _ _ _ _ _ (get_state_run _ _ _ H)). by rewrite Htl.
Qed.

Lemma get_tile_list_unset h self st :
  h !! self = Some (StateObj st) → tile_list st = None →
  get_tile_list self h = (Raise AttributeError, h).
Proof.
  intros H Htl. unfold get_tile_list.
  rewrite (bind_run _ _ _ _ _ (get_state_run _ _ _ H)). by rewrite Htl.
Qed.

Lemma set_size_run h self st v :
  h !! self = Some (StateObj st) →
  set_size self v h =
    (Ok tt, <[self := StateObj (mkState v (tile_list st) (blank_pos st))]> h).
Proof. intros H. unfold set_size. by rewrite (bind_run _ _ _ _ _ (get_state_run _ _ _ H)). Qed.

Lemma set_tile_list_run h self st tl :
  h !! self = Some (StateObj st) →
  set_tile_list self tl h =
    (Ok tt, <[self := StateObj (mkState (size st) (Some tl) (blank_pos st))]> h).
Proof. intros H. unfold set_tile_list. by rewrite (bind_run _ _ _ _ _ (get_state_run _ _ _ H)). Qed.

Lemma set_blank_pos_run h self st v :
  h !! self = Some (StateObj st) →
  set_blank_pos self v h =
    (Ok tt, <[self := StateObj (mkState (size st) (tile_list st) v)]> h).
Proof. intros H. unfold set_blank_pos. by rewrite (bind_run _ _ _ _ _ (get_state_run _ _ _ H)). Qed.

Lemma get_list_run h l items :
  h !! l = Some (ListObj items) → get_list l h = (Ok items, h).
Proof. unfold get_list. by intros ->. Qed.

Lemma subscript_in_range (items : list Z) i :
  0 ≤ i < len items → subscript items i = Ok (Z.to_nat i).
Proof. intros H. unfold subscript. by rewrite decide_True. Qed.

Lemma list_getitem_run h l items i v :
  h !! l = Some (ListObj items) → 0 ≤ i < len items →
  items !! Z.to_nat i = Some v →
  list_getitem l i h = (Ok v, h).
Proof.
  intros H Hi Hv. unfold list_getitem.
  rewrite (bind_run _ _ _ _ _ (get_list_run _ _ _ H)).
  rewrite subscript_in_range by done. rewrite bind_lift_ok. by rewrite Hv.
Qed.

Lemma list_setitem_run h l items i v :
  h !! l = Some (ListObj items) → 0 ≤ i < len items →
  list_setitem l i v h =
    (Ok tt, <[l := ListObj (<[Z.to_nat i := v]> items)]> h).
Proof.
  intros H Hi. unfold list_setitem.
  rewrite (bind_run _ _ _ _ _ (get_list_run _ _ _ H)).
  rewrite subscript_in_range by done. by rewrite bind_lift_ok.
Qed.

Lemma copy_list_run h l items :
  h !! l = Some (ListObj items) →
  copy_list l h = (Ok (fresh (dom h)), <[fresh (dom h) := ListObj items]> h).
Proof.
  intros H. unfold copy_list.
  by rewrite (bind_run _ _ _ _ _ (get_list_run _ _ _ H)).
Qed.
End Store.

(** Stepping through a computation whose next action succeeds. *)
Ltac lookup_tac :=
  repeat first [rewrite lookup_insert_eq | rewrite lookup_insert_ne by congruence];
  first [reflexivity | eassumption].

Ltac len_tac := unfold len in *; rewrite ?length_insert; lia.

Ltac step_with lem :=
  rewrite ?bind_assoc;
  erewrite bind_run; [| eapply lem; first [lookup_tac | done | lia | len_tac]];
  cbn [size tile_list blank_pos as_int]; rewrite ?bind_lift_ok, ?bind_ret.

Lemma init_None h :
  let self := fresh (dom h) in
  GemPuzzleState_init None h = (Ok self, <[self := StateObj (mkState None None None)]> h).
Proof.
  intros self. unfold GemPuzzleState_init.
  erewrite bind_run; [|reflexivity]. fold self.
  step_with set_size_run. rewrite insert_insert_eq.
  step_with set_blank_pos_run. rewrite insert_insert_eq.
  reflexivity.
Qed.

(** Facts on the built-ins. *)
Lemma index_Some v l i :
  index v l = Some i →
  l !! i = Some v ∧ ∀ j, (j < i)%nat → l !! j ≠ Some v.
Proof.
  revert i. induction l as [|x l IH]; intros i; simpl; [done|].
  case_decide as Hx.
  - intros [= <-]. split; [by subst|]. intros j Hj. lia.
  - destruct (index v l) as [i'|] eqn:E; simpl; [|done].
    intros [= <-]. destruct (IH i' eq_refl) as [H1 H2]. split; [done|].
    intros [|j] Hj; simpl; [congruence|]. apply H2. lia.
Qed.

Lemma index_None v l : index v l = None ↔ v ∉ l.
Proof.
  induction l as [|x l IH]; simpl.
  - split; [intros _; apply not_elem_of_nil | done].
  - case_decide as Hx.
    + split; [done|]. intros H. exfalso. apply H. subst. left.
    + rewrite not_elem_of_cons. destruct (index v l); simpl.
      * split; [done|]. intros [_ H]. by apply IH in H.
      * split; [|done]. intros _. split; [congruence|]. by apply IH.
Qed.

Lemma index_is_Some v l : v ∈ l → is_Some (index v l).
Proof.
  intros H. destruct (index v l) eqn:E; [eauto|].
  by apply index_None in E.
Qed.

Lemma index_lt v l i : index v l = Some i → (i < length l)%nat.
Proof. intros H. apply index_Some in H as [H _]. by apply lookup_lt_Some in H. Qed.

Lemma isqrt_square k : 0 ≤ k → isqrt (k * k) = k.
Proof. apply Z.sqrt_square. Qed.

Lemma perfect_square_isqrt n : perfect_square n ↔ n = isqrt n ^ 2.
Proof.
  split.
  - intros (k & Hk & <-). rewrite isqrt_square by done. lia.
  - intros H. exists (isqrt n). split; [apply Z.sqrt_nonneg | lia].
Qed.

(** ** The constructor *)

Section Init.
Implicit Types (h : gmap loc obj) (tl : loc) (items : list Z).

Lemma init_shape_error h tl items :
  h !! tl = Some (ListObj items) →
  ¬ perfect_square (len items) →
  (GemPuzzleState_init (Some tl) h).1 = Raise (ValueError msg_shape).
Proof.
  intros Htl Hsq. unfold GemPuzzleState_init.
  pose proof (fresh_None h) as Hf.
  erewrite bind_run; [|reflexivity]. set (self := fresh (dom h)) in *.
  assert (self ≠ tl) by congruence.
  step_with set_tile_list_run. rewrite insert_insert_eq.
  step_with get_list_run.
  step_with set_size_run. rewrite insert_insert_eq.
  step_with get_size_run.
  rewrite decide_True; [done|].
  intros E. apply Hsq, perfect_square_isqrt. done.
Qed.

Lemma init_blank_error h tl items k :
  h !! tl = Some (ListObj items) →
  0 ≤ k → k * k = len items → k * k ∉ items →
  (GemPuzzleState_init (Some tl) h).1 = Raise (ValueError msg_blank).
Proof.
  intros Htl Hk Hlen Hin. unfold GemPuzzleState_init.
  pose proof (fresh_None h) as Hf.
  erewrite bind_run; [|reflexivity]. set (self := fresh (dom h)) in *.
  assert (self ≠ tl) by congruence.
  step_with set_tile_list_run. rewrite insert_insert_eq.
  step_with get_list_run.
  step_with set_size_run. rewrite insert_insert_eq.
  rewrite <- Hlen, isqrt_square by done.
  step_with get_size_run.
  rewrite decide_False by lia.
  step_with get_size_run.
  step_with get_tile_list_run.
  step_with get_list_run.
  replace (k ^ 2) with (k * k) by lia.
  unfold contains. rewrite bool_decide_eq_false_2 by done.
  rewrite bind_ret.
  step_with set_blank_pos_run. rewrite insert_insert_eq.
  step_with get_blank_pos_run.
  by rewrite decide_True.
Qed.

Lemma init_ok h tl items k i :
  h !! tl = Some (ListObj items) →
  0 ≤ k → k * k = len items → index (k * k) items = Some i →
  GemPuzzleState_init (Some tl) h =
    (Ok (fresh (dom h)),
     <[fresh (dom h) :=
         StateObj (mkState (Some k) (Some tl) (Some (Z.of_nat i)))]> h).
Proof.
  intros Htl Hk Hlen Hi. unfold GemPuzzleState_init.
  pose proof (fresh_None h) as Hf.
  erewrite bind_run; [|reflexivity]. set (self := fresh (dom h)) in *.
  assert (self ≠ tl) by congruence.
  step_with set_tile_list_run. rewrite insert_insert_eq.
  step_with get_list_run.
  step_with set_size_run. rewrite insert_insert_eq.
  rewrite <- Hlen, isqrt_square by done.
  step_with get_size_run.
  rewrite decide_False by lia.
  step_with get_size_run.
  step_with get_tile_list_run.
  step_with get_list_run.
  replace (k ^ 2) with (k * k) by lia.
  unfold contains. rewrite bool_decide_eq_true_2; last first.
  { destruct (decide (k * k ∈ items)) as [|Hn]; [done|].
    apply index_None in Hn. congruence. }
  unfold list_index. rewrite Hi, bind_lift_ok.
  step_with set_blank_pos_run. rewrite insert_insert_eq.
  step_with get_blank_pos_run.
  rewrite decide_False by lia. reflexivity.
Qed.
End Init.

Lemma floordiv_ok a b : b ≠ 0 → floordiv a b = Ok (a `div` b).
Proof. intros. unfold floordiv. by rewrite decide_False. Qed.

Lemma pymod_ok a b : b ≠ 0 → pymod a b = Ok (a `mod` b).
Proof. intros. unfold pymod. by rewrite decide_False. Qed.

Lemma insert_over (h : gmap loc obj) i j a b c :
  i ≠ j → <[i:=a]> (<[j:=b]> (<[i:=c]> h)) = <[j:=b]> (<[i:=a]> h).
Proof. intros. by rewrite insert_insert_ne, insert_insert_eq. Qed.

(** ** One pass through the loop of [get_successors] *)

Section Successors.
Implicit Types (h : gmap loc obj) (state tl : loc) (items : list Z).

Lemma target_range n bp d t :
  0 < n → 0 ≤ bp < n * n → target n bp d = Some t → 0 ≤ t < n * n.
Proof.
  intros Hn Hbp. unfold target.
  destruct (bool_decide _ && bool_decide _) eqn:E; [|done].
  intros [= <-]. apply andb_true_iff in E as [E1 E2].
  apply bool_decide_eq_true in E1, E2. nia.
Qed.

Lemma successors_body_stay h state tl n bp acc d :
  h !! state = Some (StateObj (mkState (Some n) (Some tl) (Some bp))) →
  0 < n → target n bp d = None →
  successors_body state acc d h = (Ok acc, h).
Proof.
  intros Hs Hn Ht. destruct d as [dx dy]. unfold successors_body.
  step_with get_blank_pos_run. step_with get_size_run.
  rewrite floordiv_ok, bind_lift_ok by lia.
  step_with get_blank_pos_run. step_with get_size_run.
  rewrite pymod_ok, bind_lift_ok by lia.
  step_with get_size_run.
  unfold target in Ht. simpl in Ht.
  by destruct (bool_decide _ && bool_decide _).
Qed.

Lemma successors_body_move h state tl items n bp acc d t :
  h !! state = Some (StateObj (mkState (Some n) (Some tl) (Some bp))) →
  h !! tl = Some (ListObj items) →
  0 < n → len items = n * n → 0 ≤ bp < n * n →
  target n bp d = Some t →
  ∃ s' tl',
    h !! s' = None ∧ h !! tl' = None ∧ s' ≠ tl' ∧
    successors_body state acc d h =
      (Ok (acc ++ [s']),
       <[tl' := ListObj (slide n items bp t)]>
         (<[s' := StateObj (mkState (Some n) (Some tl') (Some t))]> h)).
Proof.
  intros Hs Htl Hn Hlen Hbp Ht.
  pose proof (target_range _ _ _ _ Hn Hbp Ht) as Hrange.
  destruct d as [dx dy]. unfold successors_body.
  step_with get_blank_pos_run. step_with get_size_run.
  rewrite floordiv_ok, bind_lift_ok by lia.
  step_with get_blank_pos_run. step_with get_size_run.
  rewrite pymod_ok, bind_lift_ok by lia.
  step_with get_size_run.
  unfold target in Ht. simpl in Ht.
  destruct (bool_decide _ && bool_decide _); [|done].
  injection Ht as Ht.
  pose proof (fresh_None h) as Hf1.
  erewrite bind_run; [|apply init_None].
  set (s' := fresh (dom h)) in *.
  assert (s' ≠ state) by congruence. assert (s' ≠ tl) by congruence.
  step_with get_size_run.
  step_with set_size_run. rewrite insert_insert_eq.
  step_with get_tile_list_run.
  step_with copy_list_run.
  match goal with |- context [fresh (dom ?m)] =>
    pose proof (fresh_None m) as Hf2; set (tl' := fresh (dom m)) in * end.
  apply lookup_insert_None in Hf2 as [Hf2 Hne].
  assert (tl' ≠ state) by congruence. assert (tl' ≠ tl) by congruence.
  exists s', tl'. split_and!; [done..|].
  step_with set_tile_list_run. rewrite insert_over by done.
  step_with get_size_run.
  step_with set_blank_pos_run. rewrite insert_over by done.
  rewrite Ht.
  step_with get_tile_list_run.
  step_with get_blank_pos_run.
  destruct (lookup_lt_is_Some_2 items (Z.to_nat t)) as [v Hv];
    [len_tac|].
  step_with list_getitem_run.
  step_with get_tile_list_run.
  step_with get_blank_pos_run.
  step_with list_setitem_run. rewrite insert_insert_eq.
  step_with get_tile_list_run.
  step_with get_blank_pos_run.
  step_with get_size_run.
  step_with list_setitem_run.
  rewrite insert_insert_eq. unfold slide. rewrite Hv. reflexivity.
Qed.
End Successors.

(** ** The whole loop of [get_successors] *)

Section Loop.
Implicit Types (h : gmap loc obj) (state tl : loc) (items : list Z).

Lemma successor_at_weaken h0 h h' n items bp p t :
  h0 ⊆ h → successor_at h h' n items bp p t →
  successor_at h0 h' n items bp p t.
Proof.
  intros Hsub (H1 & H2 & H3 & H4). split_and!; [| |done..].
  - destruct (h0 !! p.1) eqn:E; [|done].
    eapply lookup_weaken in E; [|done]. congruence.
  - destruct (h0 !! p.2) eqn:E; [|done].
    eapply lookup_weaken in E; [|done]. congruence.
Qed.

Lemma successors_loop ds : ∀ h state tl items n bp acc,
  h !! state = Some (StateObj (mkState (Some n) (Some tl) (Some bp))) →
  h !! tl = Some (ListObj items) →
  0 < n → len items = n * n → 0 ≤ bp < n * n →
  ∃ news h',
    for_each (successors_body state) ds acc h = (Ok (acc ++ news.*1), h') ∧
    h ⊆ h' ∧
    NoDup (news.*1 ++ news.*2) ∧
    Forall2 (successor_at h h' n items bp) news (omap (target n bp) ds).
Proof.
  induction ds as [|d ds IH]; intros h state tl items n bp acc Hs Htl Hn Hlen Hbp.
  - exists [], h. simpl. rewrite app_nil_r.
    split_and!; [done | done | apply NoDup_nil_2 | constructor].
  - simpl. destruct (target n bp d) as [t|] eqn:Ht.
    + destruct (successors_body_move h state tl items n bp acc d t)
        as (s' & tl' & Hs' & Htl' & Hne & Hrun); [done..|].
      rewrite (bind_run _ _ _ _ _ Hrun).
      set (h1 := <[tl' := _]> _) in *.
      assert (h ⊆ h1) as Hsub.
      { unfold h1. etrans; [|apply insert_subseteq].
        - by apply insert_subseteq.
        - rewrite lookup_insert_ne by done. done. }
      destruct (IH h1 state tl items n bp (acc ++ [s']))
        as (news & h' & Hrun' & Hsub' & Hnd & Hall);
        [by eapply lookup_weaken | by eapply lookup_weaken | done..|].
      assert (h1 !! s' = Some (StateObj (mkState (Some n) (Some tl') (Some t)))) as H1s.
      { unfold h1. rewrite lookup_insert_ne by done. by rewrite lookup_insert_eq. }
      assert (h1 !! tl' = Some (ListObj (slide n items bp t))) as H1t.
      { unfold h1. by rewrite lookup_insert_eq. }
      exists ((s', tl') :: news), h'. split_and!.
      * rewrite Hrun'. simpl. by rewrite <- app_assoc.
      * by etrans.
      * simpl. rewrite <- Permutation_middle.
        assert (∀ x, x ∈ news.*1 ++ news.*2 → h1 !! x = None) as Hfresh.
        { intros x Hx. apply elem_of_app in Hx as [Hx|Hx];
            apply list_elem_of_fmap in Hx as (p & -> & Hp);
            apply list_elem_of_lookup in Hp as [i Hi];
            destruct (Forall2_lookup_l _ _ _ _ _ Hall Hi)
              as (t' & _ & (Ha & Hb & _)); done. }
        apply NoDup_cons. split.
        { rewrite not_elem_of_cons. split; [done|].
          intros Hx. apply Hfresh in Hx. congruence. }
        apply NoDup_cons. split; [|done].
        intros Hx. apply Hfresh in Hx. congruence.
      * constructor.
        -- split_and!; [done..| |]; by eapply lookup_weaken.
        -- eapply Forall2_impl; [done|]. intros p t'.
           by apply successor_at_weaken.
    + rewrite (bind_run _ _ _ _ _
                 (successors_body_stay h state tl n bp acc d Hs Hn Ht)).
      by eapply IH.
Qed.
End Loop.

(** ** Consequences of the state invariants *)

Section Valid.
Context {h : gmap loc obj} {state tl : loc} {n bp : Z} {items : list Z}.
Hypothesis Hv : valid_state h state n tl items bp.

Lemma valid_len : len items = n * n.
Proof.
  unfold len. rewrite (valid_perm _ _ _ _ _ _ Hv), length_seqZ.
  pose proof (valid_size _ _ _ _ _ _ Hv). nia.
Qed.

Lemma valid_NoDup : NoDup items.
Proof. rewrite (valid_perm _ _ _ _ _ _ Hv). apply NoDup_seqZ. Qed.

Lemma valid_bp_range : 0 ≤ bp < n * n.
Proof.
  pose proof valid_len as Hl.
  pose proof (valid_blank_pos _ _ _ _ _ _ Hv).
  pose proof (lookup_lt_Some _ _ _ (valid_blank _ _ _ _ _ _ Hv)).
  unfold len in Hl. lia.
Qed.

Lemma valid_elem x : x ∈ items ↔ 1 ≤ x ≤ n * n.
Proof. rewrite (valid_perm _ _ _ _ _ _ Hv), elem_of_seqZ. lia. Qed.
End Valid.

Lemma target_adjacent n bp d t :
  0 < n → 0 ≤ bp < n * n → d ∈ delta → target n bp d = Some t →
  adjacent n bp t ∧ t ≠ bp.
Proof.
  intros Hn Hbp Hd Ht. pose proof (target_range _ _ _ _ Hn Hbp Ht) as Hr.
  unfold target in Ht.
  destruct (bool_decide _ && bool_decide _) eqn:E; [|done].
  injection Ht as Ht. apply andb_true_iff in E as [E1 E2].
  apply bool_decide_eq_true in E1, E2.
  assert (t `div` n = bp `div` n + d.1) as Hrow.
  { symmetry. apply (Z.div_unique_pos _ _ _ (bp `mod` n + d.2)); lia. }
  assert (t `mod` n = bp `mod` n + d.2) as Hcol.
  { symmetry. apply (Z.mod_unique_pos _ _ (bp `div` n + d.1)); lia. }
  assert (Z.abs d.1 + Z.abs d.2 = 1) as Hd1.
  { unfold delta in Hd.
    repeat (apply elem_of_cons in Hd as [->|Hd]; [simpl; lia|]).
    by apply elem_of_nil in Hd. }
  split.
  - split_and!; [lia..|]. rewrite Hrow, Hcol. lia.
  - intros ->. lia.
Qed.

Lemma slide_swapped n items bp t :
  0 ≤ bp → 0 ≤ t → t ≠ bp →
  items !! Z.to_nat bp = Some (n * n) → is_Some (items !! Z.to_nat t) →
  swapped items (slide n items bp t) (Z.to_nat bp) (Z.to_nat t).
Proof.
  intros Hbp Ht Hne Hb [v Hv]. unfold slide, swapped. rewrite Hv. simpl.
  assert (Z.to_nat bp ≠ Z.to_nat t) by lia.
  pose proof (lookup_lt_Some _ _ _ Hb). pose proof (lookup_lt_Some _ _ _ Hv).
  split_and!; [done | by eauto | by eauto | by rewrite !length_insert | ..].
  - rewrite list_lookup_insert_ne by done.
    by rewrite list_lookup_insert_eq.
  - rewrite list_lookup_insert_eq by (by rewrite length_insert).
    rewrite Hb. f_equal. lia.
  - intros k Hk1 Hk2. by rewrite !list_lookup_insert_ne.
Qed.

Lemma swapped_ne l l' i j :
  NoDup l → swapped l l' i j → l' ≠ l.
Proof.
  intros Hnd (Hne & [x Hx] & [y Hy] & _ & Hi & _) ->.
  rewrite Hx, Hy in Hi. injection Hi as ->.
  by apply Hne, (NoDup_lookup l i j y).
Qed.

Lemma targets_length n bp :
  2 ≤ n → 0 ≤ bp < n * n →
  length (targets n bp) =
    (axis_moves n (bp `div` n) + axis_moves n (bp `mod` n))%nat.
Proof.
  intros Hn Hbp.
  assert (0 ≤ bp `div` n < n) as Hrow.
  { split; [apply Z.div_pos; lia | apply Z.div_lt_upper_bound; lia]. }
  assert (0 ≤ bp `mod` n < n) as Hcol by (apply Z.mod_pos_bound; lia).
  unfold targets, delta, target, axis_moves. simpl.
  repeat case_bool_decide; repeat case_decide; simpl; lia.
Qed.

Lemma targets_bounds n bp :
  2 ≤ n → 0 ≤ bp < n * n → (2 ≤ length (targets n bp) ≤ 4)%nat.
Proof.
  intros Hn Hbp. rewrite targets_length by done.
  unfold axis_moves. repeat case_decide; lia.
Qed.

Lemma targets_le_4 n bp : (length (targets n bp) ≤ 4)%nat.
Proof.
  unfold targets, delta. simpl.
  repeat (destruct (target _ _ _); simpl); lia.
Qed.

(** ** [__hash__] and [__eq__] on states with tile lists *)

Section HashEq.
Variable str_hash : string → Z.
Implicit Types (h : gmap loc obj) (a b : loc) (st : GemPuzzleState).

Lemma hash_run h a st tl items :
  h !! a = Some (StateObj st) → tile_list st = Some tl →
  h !! tl = Some (ListObj items) →
  GemPuzzleState_hash str_hash a h = (Ok (str_hash (str_list items)), h).
Proof.
  intros Ha Htl Hl. unfold GemPuzzleState_hash.
  step_with get_tile_list_run. step_with get_list_run. reflexivity.
Qed.

Lemma eq_run h a b sa sb tla tlb ia ib :
  h !! a = Some (StateObj sa) → tile_list sa = Some tla →
  h !! tla = Some (ListObj ia) →
  h !! b = Some (StateObj sb) → tile_list sb = Some tlb →
  h !! tlb = Some (ListObj ib) →
  GemPuzzleState_eq str_hash a b h = (Ok (bool_decide (ia = ib)), h).
Proof.
  intros Ha Hta Hla Hb Htb Hlb. unfold GemPuzzleState_eq.
  erewrite bind_run; [|by eapply hash_run].
  erewrite bind_run; [|by eapply hash_run].
  case_decide as Hh.
  - step_with get_tile_list_run. step_with get_list_run.
    step_with get_tile_list_run. step_with get_list_run. reflexivity.
  - rewrite bool_decide_eq_false_2; [done|]. by intros ->.
Qed.
End HashEq.

(** ** What [get_successors] returns and leaves in the store *)

Section SuccessorsSpec.
Context {h : gmap loc obj} {state tl : loc} {n bp : Z} {items : list Z}.
Hypothesis Hv : valid_state h state n tl items bp.

Lemma get_successors_spec :
  ∃ news h',
    get_successors state h = (Ok news.*1, h') ∧
    h ⊆ h' ∧
    NoDup (news.*1 ++ news.*2) ∧
    Forall2 (successor_at h h' n items bp) news (targets n bp).
Proof.
  pose proof (valid_len Hv). pose proof (valid_bp_range Hv). destruct Hv.
  destruct (successors_loop delta h state tl items n bp [])
    as (news & h' & Hrun & ?); [done | done | lia | done..|].
  by exists news, h'.
Qed.
End SuccessorsSpec.

(** ** The loops of [is_solvable] count inversions *)

Section Inversions.

Lemma length_filter_fmap {A B} (f : A → B) (P : B → Prop)
    `{!∀ x, Decision (P x)} (l : list A) :
  length (filter P (f <$> l)) = length (filter (P ∘ f) l).
Proof.
  induction l as [|x l IH]; [done|]. rewrite fmap_cons, !filter_cons. simpl.
  destruct (decide (P (f x))); simpl; by rewrite IH.
Qed.

Lemma length_filter_ext {A} (P Q : A → Prop) `{!∀ x, Decision (P x)}
    `{!∀ x, Decision (Q x)} (l : list A) :
  (∀ x, x ∈ l → P x ↔ Q x) →
  length (filter P l) = length (filter Q l).
Proof.
  induction l as [|x l IH]; intros Hext; [done|]. rewrite !filter_cons.
  assert (P x ↔ Q x) as Hx by (apply Hext; left).
  assert (length (filter P l) = length (filter Q l)) as E.
  { apply IH. intros y Hy. apply Hext. by right. }
  destruct (decide (P x)), (decide (Q x)); simpl; tauto || lia.
Qed.

Lemma sum_list_with_ext {A} (f g : A → nat) (l : list A) :
  (∀ x, x ∈ l → f x = g x) → sum_list_with f l = sum_list_with g l.
Proof.
  induction l as [|x l IH]; intros H; [done|]. simpl.
  rewrite (H x) by left. rewrite IH; [done|]. intros y Hy. apply H. by right.
Qed.

Lemma sum_list_with_fmap {A B} (f : B → nat) (g : A → B) (l : list A) :
  sum_list_with f (g <$> l) = sum_list_with (f ∘ g) l.
Proof. induction l as [|x l IH]; [done|]. simpl. f_equal. exact IH. Qed.

Lemma fmap_lookup_total_seq (s : list Z) :
  (λ j, s !!! j) <$> seq 0 (length s) = s.
Proof.
  apply list_eq. intros i. rewrite list_lookup_fmap.
  destruct (decide (i < length s)%nat) as [Hi|Hi].
  - rewrite lookup_seq_lt by done. simpl.
    symmetry. by apply list_lookup_lookup_total_lt.
  - rewrite lookup_seq_ge by lia. simpl. symmetry.
    apply lookup_ge_None. lia.
Qed.

Lemma inversions_spec_cons x s :
  inversions_spec (x :: s) =
    (length (filter (λ y : Z, (y < x)%Z) s) + inversions_spec s)%nat.
Proof.
  unfold inversions_spec. cbn [length seq sum_list_with].
  rewrite <- !fmap_S_seq. f_equal.
  - rewrite filter_cons_False by lia.
    rewrite length_filter_fmap.
    rewrite <- (fmap_lookup_total_seq s) at 2.
    rewrite length_filter_fmap.
    apply length_filter_ext. intros j _. simpl. intuition lia.
  - rewrite sum_list_with_fmap. apply sum_list_with_ext. intros i _. simpl.
    rewrite filter_cons_False by lia.
    rewrite length_filter_fmap.
    apply length_filter_ext. intros j _. simpl. intuition lia.
Qed.

Lemma inversions_spec_rec s : inversions_spec s = inversions_rec s.
Proof.
  induction s as [|x s IH]; [done|].
  by rewrite inversions_spec_cons, IH.
Qed.

Lemma inner_loop_count tile (rest : list (nat * Z)) acc :
  inner_loop tile rest acc =
    acc + Z.of_nat (length (filter (λ y, y < tile) rest.*2)).
Proof.
  unfold inner_loop. revert acc.
  induction rest as [|[j y] rest IH]; intros acc.
  - cbn. lia.
  - cbn [fold_left]. rewrite IH, fmap_cons, filter_cons. cbn [snd].
    repeat case_decide; cbn [length]; lia.
Qed.

Lemma outer_loop_count (pee : list (nat * Z)) l : ∀ k acc,
  drop k pee = l →
  fold_left (λ inversions '(idx, (i, tile)),
               inner_loop tile (drop (S idx) pee) inversions)
            (imap (λ i x, ((k + i)%nat, x)) l) acc =
    acc + Z.of_nat (inversions_rec l.*2).
Proof.
  induction l as [|[i tile] l IH]; intros k acc Hk; [cbn; lia|].
  rewrite imap_cons, fmap_cons. cbn [fold_left inversions_rec snd].
  assert (drop (S k) pee = l) as Hk'.
  { replace (S k) with (k + 1)%nat by lia.
    by rewrite <- drop_drop, Hk. }
  rewrite Nat.add_0_r, Hk', inner_loop_count.
  rewrite (imap_ext _ (λ i x, ((S k + i)%nat, x))); last first.
  { intros j x _. cbn. f_equal. lia. }
  rewrite IH by done. lia.
Qed.

Lemma count_inversions_rec (pee : list (nat * Z)) :
  count_inversions pee = Z.of_nat (inversions_rec pee.*2).
Proof.
  unfold count_inversions, enumerate.
  rewrite (imap_ext _ (λ i x, ((0 + i)%nat, x))) by done.
  by rewrite (outer_loop_count pee pee 0 0).
Qed.

Lemma puzzle_except_empty_values (tiles : list Z) :
  (puzzle_except_empty tiles).*2 = filter (λ v, v ≠ len tiles) tiles.
Proof.
  unfold puzzle_except_empty, enumerate.
  generalize (len tiles) as b. intros b.
  assert (∀ (f : nat → Z → nat * Z),
    (∀ i x, (f i x).2 = x) →
    (filter (λ p, p.2 ≠ b) (imap f tiles)).*2 = filter (λ v, v ≠ b) tiles) as H.
  { induction tiles as [|x l IH]; intros f Hf; [done|].
    rewrite imap_cons, !filter_cons. rewrite Hf.
    destruct (decide (x ≠ b)); simpl; rewrite ?Hf, IH; try done;
      intros; apply Hf. }
  by apply H.
Qed.
End Inversions.

(** ** The answer of [is_solvable] *)

Section Solvable.

Lemma index_lookup v (l : list Z) i :
  NoDup l → l !! i = Some v → index v l = Some i.
Proof.
  intros Hnd Hi.
  destruct (index_is_Some v l) as [j Hj]; [by eapply list_elem_of_lookup_2|].
  destruct (index_Some _ _ _ Hj) as [Hj' _].
  by rewrite (NoDup_lookup l i j v).
Qed.

Lemma mod2_ne_0_odd x : bool_decide (x `mod` 2 ≠ 0) = Z.odd x.
Proof.
  rewrite Zmod_odd. destruct (Z.odd x); reflexivity.
Qed.

Lemma mod2_eq_0_even x : bool_decide (x `mod` 2 = 0) = Z.even x.
Proof.
  rewrite Zmod_even. destruct (Z.even x); reflexivity.
Qed.

Lemma is_solvable_run n tiles i :
  0 < n → len tiles = n * n → index (n * n) tiles = Some i →
  let inversions := Z.of_nat (inversions_spec (without_blank n tiles)) in
  is_solvable tiles =
    Ok (if Z.odd n then Z.even inversions
        else eqb (Z.odd (n - Z.of_nat i `div` n)) (Z.even inversions)).
Proof.
  intros Hn Hlen Hi inversions. unfold is_solvable.
  rewrite count_inversions_rec, puzzle_except_empty_values.
  rewrite Hlen, isqrt_square by lia.
  rewrite <- inversions_spec_rec. fold (without_blank n tiles).
  fold inversions. rewrite mod2_ne_0_odd, mod2_eq_0_even.
  destruct (Z.odd n) eqn:Hodd; simpl.
  - destruct (Z.even inversions) eqn:Hev; [done|].
    rewrite decide_False; [done|].
    rewrite Zmod_odd, Hodd. done.
  - rewrite decide_True by (by rewrite Zmod_odd, Hodd).
    unfold list_index. rewrite Hi. rewrite floordiv_ok by lia.
    by rewrite mod2_ne_0_odd.
Qed.

Lemma length_filter_none {A} (P : A → Prop) `{!∀ x, Decision (P x)}
    (l : list A) :
  (∀ x, x ∈ l → ¬ P x) → length (filter P l) = 0%nat.
Proof.
  induction l as [|x l IH]; intros Hl; [done|].
  rewrite filter_cons_False by (apply Hl; left).
  apply IH. intros y Hy. apply Hl. by right.
Qed.

Lemma inversions_rec_seqZ (P : Z → Prop) `{!∀ x, Decision (P x)} k :
  ∀ m, inversions_rec (filter P (seqZ m (Z.of_nat k))) = 0%nat.
Proof.
  induction k as [|k IH]; intros m; [done|].
  rewrite seqZ_cons by lia.
  replace (Z.pred (Z.of_nat (S k))) with (Z.of_nat k) by lia.
  rewrite filter_cons. case_decide; [|apply IH].
  cbn [inversions_rec]. rewrite IH, length_filter_none; [done|].
  intros y Hy. apply list_elem_of_filter in Hy as [_ Hy].
  apply elem_of_seqZ in Hy. lia.
Qed.

Lemma inversions_sorted (P : Z → Prop) `{!∀ x, Decision (P x)} m n :
  inversions_spec (filter P (seqZ m n)) = 0%nat.
Proof.
  rewrite inversions_spec_rec. destruct (decide (n ≤ 0)) as [Hn|Hn].
  - by rewrite seqZ_nil.
  - rewrite <- (Z2Nat.id n) by lia. apply inversions_rec_seqZ.
Qed.

End Solvable.

(** C2.  On a permutation of [1..n*n], with the inversions counted over the
    sequence without the blank: for an odd [n] the checker answers whether
    the count is even; for an even [n] it answers whether "the blank's row
    counted from the bottom, [n - blank_index // n], is odd" equals "the
    count is even". *)
Theorem is_solvable_parity n tiles :
  0 < n → tiles ≡ₚ seqZ 1 (n * n) →
  ∃ blank_index : nat,
    tiles !! blank_index = Some (n * n) ∧
    let inversions := Z.of_nat (inversions_spec (without_blank n tiles)) in
    let empty_row_from_bottom := n - Z.of_nat blank_index `div` n in
    is_solvable tiles =
      Ok (if Z.odd n then Z.even inversions
          else eqb (Z.odd empty_row_from_bottom) (Z.even inversions)).
Proof.
  intros Hn Hperm.
  assert (len tiles = n * n) as Hlen.
  { unfold len. rewrite Hperm, length_seqZ. nia. }
  destruct (index_is_Some (n * n) tiles) as [i Hi].
  { rewrite Hperm, elem_of_seqZ. nia. }
  exists i. split; [by apply index_Some in Hi as [? _]|].
  by apply is_solvable_run.
Qed.

Lemma is_solvable_parity_witness :
  ∃ blank_index : nat,
    [2; 1; 4; 3] !! blank_index = Some (2 * 2) ∧
    let inversions := Z.of_nat (inversions_spec (without_blank 2 [2; 1; 4; 3])) in
    let empty_row_from_bottom := 2 - Z.of_nat blank_index `div` 2 in
    is_solvable [2; 1; 4; 3] =
      Ok (if Z.odd 2 then Z.even inversions
          else eqb (Z.odd empty_row_from_bottom) (Z.even inversions)).
Proof.
  apply (is_solvable_parity 2 [2; 1; 4; 3]); [lia|].
  change (seqZ 1 (2 * 2)) with [1; 2; 3; 4].
  apply perm_trans with [1; 2; 4; 3]; [apply perm_swap|].
  do 2 apply perm_skip. apply perm_swap.
Defined.

(** C6.  The goal ordering [1, 2, ..., n*n] of every board of width at least
    2 is reported solvable. *)
Theorem is_solvable_goal n :
  2 ≤ n → is_solvable (seqZ 1 (n * n)) = Ok true.
Proof.
  intros Hn.
  assert (len (seqZ 1 (n * n)) = n * n) as Hlen.
  { unfold len. rewrite length_seqZ. nia. }
  rewrite (is_solvable_run n _ (Z.to_nat (n * n - 1))); [|lia|done|].
  - unfold without_blank. rewrite inversions_sorted. simpl.
    destruct (Z.odd n); [done|].
    replace (n - Z.of_nat (Z.to_nat (n * n - 1)) `div` n) with 1; [done|].
    rewrite Z2Nat.id by nia.
    replace (n * n - 1) with ((n - 1) * n + (n - 1)) by lia.
    rewrite Z.div_add_l, Z.div_small by lia. lia.
  - apply index_lookup; [apply NoDup_seqZ|].
    rewrite lookup_seqZ. split; nia.
Qed.

Lemma is_solvable_goal_witness : is_solvable (seqZ 1 (3 * 3)) = Ok true.
Proof. apply (is_solvable_goal 3). lia. Defined.

(** ** The loop of [manhattan_distance] *)

Section Manhattan.
Implicit Types (h : gmap loc obj) (l : list Z).

Lemma cell_dist_sym n p q : cell_dist n p q = cell_dist n q p.
Proof. unfold cell_dist. lia. Qed.

Lemma tile_dist_sym n l1 l2 t : tile_dist n l1 l2 t = tile_dist n l2 l1 t.
Proof. unfold tile_dist. case_decide; [apply cell_dist_sym | done]. Qed.

Lemma sumZ_perm (l k : list Z) : l ≡ₚ k → sumZ l = sumZ k.
Proof.
  induction 1 as [|x l k _ IH|x y l|l k m _ IH1 _ IH2]; simpl;
    [done | by rewrite IH | lia | congruence].
Qed.

Lemma positions_dict_snoc b l x :
  positions_dict b (l ++ [x]) =
    if decide (x ≠ b) then <[x := length l]> (positions_dict b l)
    else positions_dict b l.
Proof.
  unfold positions_dict, enumerate.
  rewrite imap_app, fold_left_app. simpl. by rewrite Nat.add_0_r.
Qed.

Lemma positions_dict_lookup b l i t :
  NoDup l → l !! i = Some t → t ≠ b →
  positions_dict b l !! t = Some i.
Proof.
  revert i. induction l as [|x l IH] using rev_ind; intros i Hnd Hi Hb; [done|].
  apply NoDup_app in Hnd as (Hnd & Hx & _).
  rewrite positions_dict_snoc.
  destruct (decide (i < length l)%nat) as [Hlt|Hge].
  - rewrite lookup_app_l in Hi by done.
    assert (t ≠ x) as Hne.
    { intros ->. eapply Hx; [by eapply list_elem_of_lookup_2 | left]. }
    case_decide; [rewrite lookup_insert_ne by done|]; by apply IH.
  - rewrite lookup_app_r in Hi by lia.
    apply list_lookup_singleton_Some in Hi as [Hi ->].
    rewrite decide_True by done. rewrite lookup_insert_eq. f_equal. lia.
Qed.

Lemma pos_in_lookup l i t : NoDup l → l !! i = Some t → pos_in l t = Z.of_nat i.
Proof. intros Hnd Hi. unfold pos_in. by rewrite (index_lookup t l i). Qed.

Lemma snd_imap {A} (f : nat → A → nat * A) (l : list A) :
  (∀ i x, (f i x).2 = x) → (imap f l).*2 = l.
Proof.
  revert f. induction l as [|x l IH]; intros f Hf; [done|].
  rewrite imap_cons, fmap_cons, Hf, IH; [done|]. intros; apply Hf.
Qed.

Lemma distance_loop n l1 l2 (ps : list (nat * Z)) : ∀ acc h,
  0 < n → NoDup l1 → NoDup l2 →
  (∀ p t, (p, t) ∈ ps → l1 !! p = Some t ∧ t ∈ l2) →
  for_each (distance_body (Some n) (n * n) (positions_dict (n * n) l2))
           ps acc h =
    (Ok (acc + sumZ (tile_dist n l1 l2 <$> ps.*2)), h).
Proof.
  induction ps as [|[p t] ps IH]; intros acc h Hn Hnd1 Hnd2 Hps.
  - cbn. by rewrite Z.add_0_r.
  - cbn [for_each].
    destruct (Hps p t) as [Hp Ht]; [left|].
    apply list_elem_of_lookup in Ht as [q Hq].
    assert (distance_body (Some n) (n * n) (positions_dict (n * n) l2)
              acc (p, t) h = (Ok (acc + tile_dist n l1 l2 t), h)) as Hbody.
    { unfold distance_body, tile_dist. case_decide as Hb; [|by rewrite Z.add_0_r].
      unfold dict_getitem. rewrite (positions_dict_lookup _ _ q t) by done.
      cbv beta iota. rewrite bind_lift_ok. cbn [as_int].
      repeat first [rewrite bind_lift_ok | rewrite floordiv_ok by lia
                   | rewrite pymod_ok by lia].
      by rewrite (pos_in_lookup l1 p t), (pos_in_lookup l2 q t). }
    rewrite (bind_run _ _ _ _ _ Hbody).
    rewrite IH; [|done..|].
    + rewrite !fmap_cons. cbn [snd sumZ foldr]. do 2 f_equal.
      unfold sumZ. lia.
    + intros p' t' Hin. apply Hps. by right.
Qed.

Lemma manhattan_run h a b n tla tlb ia ib bpa bpb :
  valid_state h a n tla ia bpa → valid_state h b n tlb ib bpb →
  manhattan_distance a b h = (Ok (sumZ (tile_dist n ia ib <$> ia)), h).
Proof.
  intros Ha Hb.
  pose proof (valid_len Ha) as Hlen. pose proof (valid_NoDup Ha) as Hnda.
  pose proof (valid_NoDup Hb) as Hndb.
  assert (∀ t, t ∈ ia → t ∈ ib) as Hin.
  { intros t. rewrite (valid_elem Ha), (valid_elem Hb). done. }
  destruct Ha, Hb. unfold manhattan_distance.
  step_with get_size_run.
  step_with get_tile_list_run. step_with get_list_run.
  step_with get_tile_list_run. step_with get_list_run.
  step_with get_tile_list_run. step_with get_list_run.
  rewrite Hlen, (distance_loop n ia ib); [|lia|done|done|].
  - unfold enumerate. by rewrite snd_imap.
  - intros p t Hp. apply list_elem_of_lookup in Hp as [i Hi].
    unfold enumerate in Hi. rewrite list_lookup_imap in Hi.
    destruct (ia !! i) as [x|] eqn:E; [|done]. injection Hi as <- <-.
    split; [done|]. apply Hin. by eapply list_elem_of_lookup_2.
Qed.
End Manhattan.

(** C7.  For two valid states of the same width the heuristic returns the
    same distance in both argument orders (and leaves the store alone). *)
Theorem manhattan_distance_symmetric h a b n tla tlb ia ib bpa bpb :
  valid_state h a n tla ia bpa → valid_state h b n tlb ib bpb →
  ∃ dist,
    manhattan_distance a b h = (Ok dist, h) ∧
    manhattan_distance b a h = (Ok dist, h).
Proof.
  intros Ha Hb. exists (sumZ (tile_dist n ia ib <$> ia)).
  split; [by eapply manhattan_run|].
  erewrite manhattan_run by done. do 2 f_equal.
  rewrite (list_fmap_ext _ (tile_dist n ia ib) ib)
    by (intros; apply tile_dist_sym).
  apply sumZ_perm, fmap_Permutation.
  rewrite (valid_perm _ _ _ _ _ _ Ha), (valid_perm _ _ _ _ _ _ Hb). done.
Qed.

(** ** Loops over appended sequences, and [try] *)

Section RunMore.
Context {S : Type}.

Lemma bind_ok_inv {A B} (m : ST S A) (k : A → ST S B) s b s' :
  bind m k s = (Ok b, s') →
  ∃ a s1, m s = (Ok a, s1) ∧ k a s1 = (Ok b, s').
Proof.
  unfold bind. destruct (m s) as [[a|e] s1]; [|done]. by exists a, s1.
Qed.

Lemma bind_ext {A B} (m : ST S A) (k1 k2 : A → ST S B) s :
  (∀ a s', k1 a s' = k2 a s') → bind m k1 s = bind m k2 s.
Proof. intros H. unfold bind. by destruct (m s) as [[a|e] s1]. Qed.

Lemma for_each_app {A B} (body : B → A → ST S B) l1 l2 acc s :
  for_each body (l1 ++ l2) acc s =
    bind (for_each body l1 acc) (for_each body l2) s.
Proof.
  revert acc s. induction l1 as [|x l1 IH]; intros acc s; [done|].
  cbn [app for_each]. rewrite bind_assoc. apply bind_ext. intros; apply IH.
Qed.

End RunMore.

(** ** One task of the harness *)

Section HarnessProofs.
Context {V : Type}.
Variable float_zero : V.
Variable search_function : loc → loc → M (search_return V).
Variable is_blank_line : string → bool.
Variable parse_ints : string → result (list Z).

Local Abbreviation task_ :=
  (task V float_zero search_function is_blank_line parse_ints).
Local Abbreviation run_tasks_ :=
  (run_tasks float_zero search_function is_blank_line parse_ints).
Local Abbreviation massive_test_ :=
  (massive_test V float_zero search_function is_blank_line parse_ints).

Lemma on_store_run {A} (m : M A) (s : harness V) r h' :
  m (store s) = (r, h') →
  on_store m s =
    (r, mkHarness h' (stat_len s) (stat_st_size s) (stat_steps s) (printed s)).
Proof. unfold on_store. by intros ->. Qed.


Lemma run_tasks_app first lines1 lines2 s :
  run_tasks_ first (lines1 ++ lines2) s =
    bind (run_tasks_ first lines1)
         (λ _, run_tasks_ (first + length lines1) lines2) s.
Proof.
  unfold run_tasks. rewrite imap_app, for_each_app.
  apply bind_ext. intros [] s'. f_equal.
  apply imap_ext. intros i x _. simpl. f_equal. lia.
Qed.

Lemma massive_test_run_tasks lines s :
  massive_test_ lines s =
    bind new_stat (λ _, bind (run_tasks_ 0 lines) (λ _, collect)) s.
Proof. reflexivity. Qed.

Lemma task_search_returns task_num line (s : harness V) tiles start goal h r h' :
  is_blank_line line = false →
  parse_ints line = Ok tiles →
  prepare tiles (store s) = (Ok (start, goal), h) →
  search_function start goal h = (Ok r, h') →
  (found r = true → is_Some (last_state_g r)) →
  task_ tt (task_num, line) s =
    (Ok tt,
     mkHarness h'
       (stat_len s ++
          [if found r then default float_zero (last_state_g r)
           else float_zero])
       (stat_st_size s ++ [search_tree_size r])
       (stat_steps s ++ [number_of_steps r])
       (printed s)).
Proof.
  intros Hblank Hparse Hprep Hsearch Hg.
  unfold prepare in Hprep.
  apply bind_ok_inv in Hprep as (l1 & h1 & E1 & Hprep).
  apply bind_ok_inv in Hprep as (items & h2 & E2 & Hprep).
  apply bind_ok_inv in Hprep as (l2 & h3 & E3 & Hprep).
  apply bind_ok_inv in Hprep as (s1 & h4 & E4 & Hprep).
  apply bind_ok_inv in Hprep as (s2 & h5 & E5 & Hprep).
  injection Hprep as -> -> ->.
  unfold task. rewrite Hblank, Hparse, bind_lift_ok.
  do 5 (erewrite bind_run; [|by apply on_store_run]).
  unfold try_except.
  erewrite bind_run; [|by apply on_store_run].
  destruct (found r).
  - destruct Hg as [g Hg]; [done|]. by rewrite Hg.
  - reflexivity.
Qed.








End HarnessProofs.

(** ** Successor generation *)

Section Claims.
Variable str_hash : string → Z.

(** C3.  From a valid state [get_successors] returns between 0 and 4 states;
    each has the width of the input, its blank on a cell adjacent to the
    input's blank, and the tiles of the input with exactly those two cells
    exchanged; none compares equal to the input. *)
Theorem get_successors_one_swap h state n tl items bp :
  valid_state h state n tl items bp →
  ∃ succs h',
    get_successors state h = (Ok succs, h') ∧
    (0 ≤ length succs ≤ 4)%nat ∧
    ∀ s', s' ∈ succs →
      ∃ tl' items' t,
        h' !! s' = Some (StateObj (mkState (Some n) (Some tl') (Some t))) ∧
        h' !! tl' = Some (ListObj items') ∧
        adjacent n bp t ∧
        swapped items items' (Z.to_nat bp) (Z.to_nat t) ∧
        items' !! Z.to_nat t = Some (n * n) ∧
        items' ≠ items ∧
        GemPuzzleState_eq str_hash s' state h' = (Ok false, h').
Proof.
  intros Hv.
  destruct (get_successors_spec Hv) as (news & h' & Hrun & Hsub & _ & Hall).
  pose proof (valid_len Hv) as Hlen. pose proof (valid_bp_range Hv) as Hbp.
  pose proof (valid_NoDup Hv) as Hnd. destruct Hv.
  exists news.*1, h'. split; [done|]. split.
  { rewrite length_fmap, (Forall2_length _ _ _ Hall).
    pose proof (targets_le_4 n bp). lia. }
  intros s' Hs'. apply list_elem_of_fmap in Hs' as ([s tl'] & -> & Hp).
  apply list_elem_of_lookup in Hp as [i Hi].
  destruct (Forall2_lookup_l _ _ _ _ _ Hall Hi) as (t & Ht & _ & _ & Hs & Hl).
  simpl in *. apply list_elem_of_lookup_2 in Ht.
  apply list_elem_of_omap in Ht as (d & Hd & Ht).
  destruct (target_adjacent n bp d t) as [Hadj Hne]; [lia | done..|].
  assert (swapped items (slide n items bp t) (Z.to_nat bp) (Z.to_nat t)) as Hsw.
  { apply slide_swapped; [lia | unfold adjacent in Hadj; lia | done..|].
    apply lookup_lt_is_Some_2. unfold adjacent in Hadj. unfold len in Hlen. lia. }
  pose proof (swapped_ne _ _ _ _ Hnd Hsw) as Hneq.
  exists tl', (slide n items bp t), t. split_and!; [done.. | | done |].
  { destruct Hsw as (_ & _ & _ & _ & _ & -> & _). done. }
  erewrite eq_run; [| exact Hs | done | exact Hl
                    | by eapply lookup_weaken | done | by eapply lookup_weaken].
  by rewrite bool_decide_eq_false_2.
Qed.

End Claims.

Lemma get_successors_one_swap_witness :
  ∃ succs h',
    get_successors 1%nat store2 = (Ok succs, h') ∧
    (0 ≤ length succs ≤ 4)%nat ∧
    ∀ s', s' ∈ succs →
      ∃ tl' items' t,
        h' !! s' = Some (StateObj (mkState (Some 2) (Some tl') (Some t))) ∧
        h' !! tl' = Some (ListObj items') ∧
        adjacent 2 3 t ∧
        swapped [1; 2; 3; 4] items' (Z.to_nat 3) (Z.to_nat t) ∧
        items' !! Z.to_nat t = Some (2 * 2) ∧
        items' ≠ [1; 2; 3; 4] ∧
        GemPuzzleState_eq (λ s, Z.of_nat (String.length s)) s' 1%nat h'
          = (Ok false, h').
Proof.
  apply (get_successors_one_swap _ store2 1%nat 2 0%nat [1; 2; 3; 4] 3).
  split; [reflexivity | reflexivity | lia | reflexivity | lia | reflexivity].
Defined.

(** C8.  A call of [get_successors] on a valid state changes no object that
    was in the store: the input state and its tile list are as before.  Each
    successor is a new object with a new tile list of its own, at addresses
    unused before the call and shared with no other successor. *)
Theorem get_successors_frame h state n tl items bp :
  valid_state h state n tl items bp →
  ∃ news h',
    get_successors state h = (Ok news.*1, h') ∧
    h' !! state = Some (StateObj (mkState (Some n) (Some tl) (Some bp))) ∧
    h' !! tl = Some (ListObj items) ∧
    (∀ l o, h !! l = Some o → h' !! l = Some o) ∧
    NoDup (news.*1 ++ news.*2) ∧
    ∀ s' tl', (s', tl') ∈ news →
      h !! s' = None ∧ h !! tl' = None ∧ s' ≠ state ∧ tl' ≠ tl ∧
      ∃ size' bp' items',
        h' !! s' = Some (StateObj (mkState size' (Some tl') bp')) ∧
        h' !! tl' = Some (ListObj items').
Proof.
  intros Hv.
  destruct (get_successors_spec Hv) as (news & h' & Hrun & Hsub & Hnd & Hall).
  destruct Hv.
  exists news, h'. split_and!; [done | by eapply lookup_weaken
    | by eapply lookup_weaken | by intros; eapply lookup_weaken | done |].
  intros s' tl' Hp. apply list_elem_of_lookup in Hp as [i Hi].
  destruct (Forall2_lookup_l _ _ _ _ _ Hall Hi) as (t & _ & H1 & H2 & H3 & H4).
  simpl in *. split_and!; [done | done | congruence | congruence |].
  by eexists _, _, _.
Qed.

Lemma get_successors_frame_witness :
  ∃ news h',
    get_successors 1%nat store2 = (Ok news.*1, h') ∧
    h' !! 1%nat = Some (StateObj (mkState (Some 2) (Some 0%nat) (Some 3))) ∧
    h' !! 0%nat = Some (ListObj [1; 2; 3; 4]) ∧
    (∀ l o, store2 !! l = Some o → h' !! l = Some o) ∧
    NoDup (news.*1 ++ news.*2) ∧
    ∀ s' tl', (s', tl') ∈ news →
      store2 !! s' = None ∧ store2 !! tl' = None ∧ s' ≠ 1%nat ∧ tl' ≠ 0%nat ∧
      ∃ size' bp' items',
        h' !! s' = Some (StateObj (mkState size' (Some tl') bp')) ∧
        h' !! tl' = Some (ListObj items').
Proof.
  apply (get_successors_frame store2 1%nat 2 0%nat [1; 2; 3; 4] 3).
  split; [reflexivity | reflexivity | lia | reflexivity | lia | reflexivity].
Defined.

(** C10.  A valid state has at least 2 successors: one per axis when the
    blank is at an end of it, two when it is not (2 for a corner, 3 for an
    edge, 4 for an interior cell). *)
Theorem get_successors_at_least_two h state n tl items bp :
  valid_state h state n tl items bp →
  ∃ succs h',
    get_successors state h = (Ok succs, h') ∧
    (2 ≤ length succs)%nat ∧
    length succs =
      (axis_moves n (bp `div` n) + axis_moves n (bp `mod` n))%nat.
Proof.
  intros Hv.
  destruct (get_successors_spec Hv) as (news & h' & Hrun & _ & _ & Hall).
  pose proof (valid_bp_range Hv) as Hbp. destruct Hv.
  exists news.*1, h'. split; [done|].
  rewrite length_fmap, (Forall2_length _ _ _ Hall).
  split; [by apply targets_bounds | by apply targets_length].
Qed.

Lemma get_successors_at_least_two_witness :
  ∃ succs h',
    get_successors 1%nat store2 = (Ok succs, h') ∧
    (2 ≤ length succs)%nat ∧
    length succs =
      (axis_moves 2 (3 `div` 2) + axis_moves 2 (3 `mod` 2))%nat.
Proof.
  apply (get_successors_at_least_two store2 1%nat 2 0%nat [1; 2; 3; 4] 3).
  split; [reflexivity | reflexivity | lia | reflexivity | lia | reflexivity].
Defined.

(** C9.  [GemPuzzleState()] does not raise: it returns a new object whose
    [size] and [blank_pos] are [None] and whose [tile_list] attribute does
    not exist, whatever the store. *)
Theorem init_without_tiles h :
  ∃ self,
    h !! self = None ∧
    GemPuzzleState_init None h =
      (Ok self, <[self := StateObj (mkState None None None)]> h) ∧
    get_tile_list self (<[self := StateObj (mkState None None None)]> h) =
      (Raise AttributeError, <[self := StateObj (mkState None None None)]> h).
Proof.
  exists (fresh (dom h)). split_and!.
  - apply fresh_None.
  - apply init_None.
  - eapply get_tile_list_unset; [apply lookup_insert_eq | done].
Qed.

(** C1, as the constructor behaves.  Construction raises when the length is
    not a perfect square, and raises when the length is [k * k] and the value
    [k * k] is absent; in every other case, also when [k * k] occurs more
    than once, it succeeds with [size = k] and [blank_pos] the index of the
    first occurrence of [k * k]. *)
Theorem init_checks h tl items :
  h !! tl = Some (ListObj items) →
  (¬ perfect_square (len items) →
   (GemPuzzleState_init (Some tl) h).1 = Raise (ValueError msg_shape)) ∧
  (∀ k, 0 ≤ k → k * k = len items →
     (k * k ∉ items →
      (GemPuzzleState_init (Some tl) h).1 = Raise (ValueError msg_blank)) ∧
     (k * k ∈ items →
      ∃ self i,
        h !! self = None ∧
        GemPuzzleState_init (Some tl) h =
          (Ok self,
           <[self := StateObj (mkState (Some k) (Some tl)
                                       (Some (Z.of_nat i)))]> h) ∧
        items !! i = Some (k * k) ∧
        ∀ j, (j < i)%nat → items !! j ≠ Some (k * k))).
Proof.
  intros Htl. split; [by apply init_shape_error|].
  intros k Hk Hlen. split; [by eapply init_blank_error|].
  intros Hin. destruct (index_is_Some _ _ Hin) as [i Hi].
  exists (fresh (dom h)), i. destruct (index_Some _ _ _ Hi) as [H1 H2].
  split_and!; [apply fresh_None | by eapply init_ok | done..].
Qed.

Lemma init_checks_witness :
  (¬ perfect_square (len [2; 1; 4; 3]) →
   (GemPuzzleState_init (Some 0%nat) {[0%nat := ListObj [2; 1; 4; 3]]}).1
     = Raise (ValueError msg_shape)) ∧
  (∀ k, 0 ≤ k → k * k = len [2; 1; 4; 3] →
     (k * k ∉ [2; 1; 4; 3] →
      (GemPuzzleState_init (Some 0%nat) {[0%nat := ListObj [2; 1; 4; 3]]}).1
        = Raise (ValueError msg_blank)) ∧
     (k * k ∈ [2; 1; 4; 3] →
      ∃ self i,
        ({[0%nat := ListObj [2; 1; 4; 3]]} : gmap loc obj) !! self = None ∧
        GemPuzzleState_init (Some 0%nat) {[0%nat := ListObj [2; 1; 4; 3]]} =
          (Ok self,
           <[self := StateObj (mkState (Some k) (Some 0%nat)
                                       (Some (Z.of_nat i)))]>
             {[0%nat := ListObj [2; 1; 4; 3]]}) ∧
        [2; 1; 4; 3] !! i = Some (k * k) ∧
        ∀ j, (j < i)%nat → [2; 1; 4; 3] !! j ≠ Some (k * k))).
Proof.
  apply (init_checks {[0%nat := ListObj [2; 1; 4; 3]]} 0%nat [2; 1; 4; 3]).
  reflexivity.
Defined.

(** C1 as stated fails: a list in which the blank value occurs twice is
    accepted, with [blank_pos] at the first occurrence. *)
Lemma init_accepts_duplicate_blank :
  let items := [4; 4; 1; 2] in
  let h : gmap loc obj := {[0%nat := ListObj items]} in
  (1 < length (filter (λ v : Z, v = 2 * 2)%Z items))%nat ∧
  ∃ self,
    GemPuzzleState_init (Some 0%nat) h =
      (Ok self, <[self := StateObj (mkState (Some 2) (Some 0%nat) (Some 0))]> h).
Proof.
  intros items h. split; [simpl; lia|].
  exists (fresh (dom h)).
  by apply (init_ok h 0%nat items 2 0).
Qed.

(** ** Equality and hashing *)

Section EqHash.
Variable str_hash : string → Z.

(** C5.  For two states with tile lists, [__eq__] returns [True] exactly when
    the two tile sequences are equal; [__hash__] depends on the tile sequence
    only, so states that compare equal have the same hash. *)
Theorem eq_iff_tiles_hash_pure h a b sa sb tla tlb ia ib :
  h !! a = Some (StateObj sa) → tile_list sa = Some tla →
  h !! tla = Some (ListObj ia) →
  h !! b = Some (StateObj sb) → tile_list sb = Some tlb →
  h !! tlb = Some (ListObj ib) →
  ∃ r,
    GemPuzzleState_eq str_hash a b h = (Ok r, h) ∧
    (r = true ↔ ia = ib) ∧
    GemPuzzleState_hash str_hash a h = (Ok (str_hash (str_list ia)), h) ∧
    GemPuzzleState_hash str_hash b h = (Ok (str_hash (str_list ib)), h) ∧
    (r = true →
     GemPuzzleState_hash str_hash a h = GemPuzzleState_hash str_hash b h).
Proof.
  intros Ha Hta Hla Hb Htb Hlb. exists (bool_decide (ia = ib)).
  rewrite (hash_run str_hash h a sa tla ia), (hash_run str_hash h b sb tlb ib)
    by done.
  split_and!; [by eapply eq_run | apply bool_decide_eq_true | done | done |].
  intros E. apply bool_decide_eq_true in E. by subst.
Qed.
End EqHash.

Lemma eq_iff_tiles_hash_pure_witness :
  ∃ r,
    GemPuzzleState_eq demo_hash 1%nat 3%nat store3 = (Ok r, store3) ∧
    (r = true ↔ [1; 2; 3; 4] = [1; 2; 4; 3]) ∧
    GemPuzzleState_hash demo_hash 1%nat store3 =
      (Ok (demo_hash (str_list [1; 2; 3; 4])), store3) ∧
    GemPuzzleState_hash demo_hash 3%nat store3 =
      (Ok (demo_hash (str_list [1; 2; 4; 3])), store3) ∧
    (r = true →
     GemPuzzleState_hash demo_hash 1%nat store3 =
       GemPuzzleState_hash demo_hash 3%nat store3).
Proof.
  apply (eq_iff_tiles_hash_pure demo_hash store3 1%nat 3%nat
           (mkState (Some 2) (Some 0%nat) (Some 3))
           (mkState (Some 2) (Some 2%nat) (Some 2)) 0%nat 2%nat);
    reflexivity.
Defined.

Lemma manhattan_distance_symmetric_witness :
  ∃ dist,
    manhattan_distance 1%nat 3%nat store3 = (Ok dist, store3) ∧
    manhattan_distance 3%nat 1%nat store3 = (Ok dist, store3).
Proof.
  apply (manhattan_distance_symmetric store3 1%nat 3%nat 2 0%nat 2%nat
           [1; 2; 3; 4] [1; 2; 4; 3] 3 2).
  - split; [reflexivity | reflexivity | lia | reflexivity | lia | reflexivity].
  - split; [reflexivity | reflexivity | lia | | lia | reflexivity].
    change (seqZ 1 (2 * 2)) with [1; 2; 3; 4].
    do 2 apply perm_skip. apply perm_swap.
Defined.


(** ** The code run on concrete inputs *)

Example init_not_square :
  (GemPuzzleState_init (Some 0%nat) {[0%nat := ListObj [1; 2; 3]]}).1
    = Raise (ValueError msg_shape).
Proof. vm_compute. reflexivity. Qed.

Example init_no_blank :
  (GemPuzzleState_init (Some 0%nat) {[0%nat := ListObj [1; 2; 3; 5]]}).1
    = Raise (ValueError msg_blank).
Proof. vm_compute. reflexivity. Qed.

Example get_successors_corner :
  let r := get_successors 1%nat store2 in
  r.1 = Ok [2%nat; 4%nat] ∧
  r.2 !! 2%nat = Some (StateObj (mkState (Some 2) (Some 3%nat) (Some 2))) ∧
  r.2 !! 3%nat = Some (ListObj [1; 2; 4; 3]) ∧
  r.2 !! 4%nat = Some (StateObj (mkState (Some 2) (Some 5%nat) (Some 1))) ∧
  r.2 !! 5%nat = Some (ListObj [1; 4; 3; 2]) ∧
  r.2 !! 0%nat = Some (ListObj [1; 2; 3; 4]).
Proof. vm_compute. repeat split. Qed.

Example is_solvable_swapped_pair : is_solvable [2; 1; 3; 4] = Ok false.
Proof. vm_compute. reflexivity. Qed.

Example is_solvable_one_move : is_solvable [1; 2; 4; 3] = Ok true.
Proof. vm_compute. reflexivity. Qed.

Example is_solvable_empty :
  is_solvable [] = Raise (ValueError "0 is not in list").
Proof. vm_compute. reflexivity. Qed.

Example is_solvable_no_blank :
  is_solvable [1; 2; 3; 5] = Raise (ValueError "4 is not in list").
Proof. vm_compute. reflexivity. Qed.

Example manhattan_distance_one_move :
  manhattan_distance 3%nat 1%nat store3 = (Ok 1, store3).
Proof. vm_compute. reflexivity. Qed.

Example massive_test_demo :
  let r := massive_test Z 0 demo_search demo_blank demo_parse
             ["1 2 3 4"%string; EmptyString; "2 1 3 4"%string; "1 2 3 4"%string] demo_harness in
  r.1 = Ok ([5; 5], [9; 9], [7; 7]) ∧ printed r.2 = [(2%nat, demo_error)].
Proof. vm_compute. split; reflexivity. Qed.

(** * Further properties of the code *)

(** ** Successors keep the invariants *)

Lemma slide_perm n items bp t :
  0 ≤ bp → 0 ≤ t → t ≠ bp →
  items !! Z.to_nat bp = Some (n * n) → is_Some (items !! Z.to_nat t) →
  slide n items bp t ≡ₚ items.
Proof.
  intros Hbp Ht Hne Hb [v Hv]. unfold slide. rewrite Hv. simpl.
  replace (n ^ 2) with (n * n) by lia.
  set (i := Z.to_nat bp) in *. set (j := Z.to_nat t) in *.
  assert (i ≠ j) by lia.
  pose proof (lookup_lt_Some _ _ _ Hb). pose proof (lookup_lt_Some _ _ _ Hv).
  apply Permutation_inj. split; [by rewrite !length_insert|].
  exists (λ k, if decide (k = i) then j else if decide (k = j) then i else k).
  split.
  - intros x y. repeat case_decide; lia.
  - intros k. repeat case_decide; subst.
    + rewrite list_lookup_insert_ne by done.
      by rewrite list_lookup_insert_eq.
    + rewrite list_lookup_insert_eq by (by rewrite length_insert). done.
    + by rewrite !list_lookup_insert_ne.
Qed.

Lemma successor_valid h h' n items bp tl0 st0 p t d :
  valid_state h st0 n tl0 items bp →
  d ∈ delta → target n bp d = Some t →
  successor_at h h' n items bp p t →
  valid_state h' p.1 n p.2 (slide n items bp t) t.
Proof.
  intros Hv Hd Ht (_ & _ & Hs & Hl).
  pose proof (valid_len Hv) as Hlen. pose proof (valid_bp_range Hv) as Hbp.
  pose proof (valid_size _ _ _ _ _ _ Hv) as Hn.
  pose proof (valid_blank _ _ _ _ _ _ Hv) as Hb.
  destruct (target_adjacent n bp d t) as [Hadj Hne]; [lia | done..|].
  assert (is_Some (items !! Z.to_nat t)) as Hsome.
  { apply lookup_lt_is_Some_2. unfold adjacent in Hadj. unfold len in Hlen. lia. }
  assert (0 ≤ t) by (unfold adjacent in Hadj; lia).
  split; [done | done | done | | done |].
  - rewrite slide_perm by (done || lia). apply (valid_perm _ _ _ _ _ _ Hv).
  - destruct (slide_swapped n items bp t) as (_ & _ & _ & _ & _ & -> & _);
      done || lia.
Qed.

Lemma div_mod_cell n r c :
  0 < n → 0 ≤ c < n → (r * n + c) `div` n = r ∧ (r * n + c) `mod` n = c.
Proof.
  intros Hn Hc. split.
  - symmetry. apply (Z.div_unique_pos _ _ _ c); lia.
  - symmetry. apply (Z.mod_unique_pos _ _ r); lia.
Qed.

Section Neighbours.
Context (n bp : Z) (Hn : 2 ≤ n) (Hbp : 0 ≤ bp < n * n).

Lemma cell_row_col :
  0 ≤ bp `div` n < n ∧ 0 ≤ bp `mod` n < n ∧
  bp = bp `div` n * n + bp `mod` n.
Proof.
  split_and!; try (apply Z.mod_pos_bound; lia).
  - apply Z.div_pos; lia.
  - apply Z.div_lt_upper_bound; lia.
  - pose proof (Z.div_mod bp n). lia.
Qed.

Lemma adjacent_cell r' c' :
  0 ≤ c' < n →
  adjacent n bp (r' * n + c') ↔
    0 ≤ r' < n ∧
    Z.abs (bp `div` n - r') + Z.abs (bp `mod` n - c') = 1.
Proof.
  intros Hc'. unfold adjacent.
  destruct (div_mod_cell n r' c') as [-> ->]; [lia | done|].
  split; [intros (_ & ? & H0) | intros (? & ?)].
  - split; [split; nia | exact H0].
  - split_and!; first [done | lia | nia].
Qed.

Lemma target_neighbour d :
  d ∈ delta →
  target n bp d =
    if decide (adjacent n bp (bp + (d.1 * n + d.2)))
    then Some (bp + (d.1 * n + d.2)) else None.
Proof.
  intros Hd. destruct cell_row_col as (Hr & Hc & Hdm).
  unfold target.
  set (r := bp `div` n) in *. set (c := bp `mod` n) in *.
  assert (∀ r' c', 0 ≤ c' < n → bp + (d.1 * n + d.2) = r' * n + c' →
            (0 ≤ r' < n ∧ Z.abs (r - r') + Z.abs (c - c') = 1) ↔
            adjacent n bp (bp + (d.1 * n + d.2))) as Hadj.
  { intros r' c' Hc' ->. symmetry. by apply adjacent_cell. }
  unfold delta in Hd.
  repeat (apply elem_of_cons in Hd as [->|Hd]); [..|by apply elem_of_nil in Hd];
    cbn [fst snd] in *.
  - destruct (decide (c + 1 < n)).
    + rewrite !bool_decide_eq_true_2 by lia. simpl.
      rewrite decide_True; [f_equal; lia|].
      apply (Hadj r (c + 1)); lia.
    + rewrite (bool_decide_eq_false_2 (0 ≤ c + 1 < n)), andb_false_r by lia.
      rewrite decide_False; [done|].
      rewrite <- (Hadj (r + 1) 0); lia.
  - destruct (decide (r + 1 < n)).
    + rewrite !bool_decide_eq_true_2 by lia. simpl.
      rewrite decide_True; [f_equal; lia|].
      apply (Hadj (r + 1) c); lia.
    + rewrite (bool_decide_eq_false_2 (0 ≤ r + 1 < n)) by lia. simpl.
      rewrite decide_False; [done|].
      rewrite <- (Hadj (r + 1) c); lia.
  - destruct (decide (0 < c)).
    + rewrite !bool_decide_eq_true_2 by lia. simpl.
      rewrite decide_True; [f_equal; lia|].
      apply (Hadj r (c - 1)); lia.
    + rewrite (bool_decide_eq_false_2 (0 ≤ c + -1 < n)), andb_false_r by lia.
      rewrite decide_False; [done|].
      rewrite <- (Hadj (r - 1) (n - 1)); lia.
  - destruct (decide (0 < r)).
    + rewrite !bool_decide_eq_true_2 by lia. simpl.
      rewrite decide_True; [f_equal; lia|].
      apply (Hadj (r - 1) c); lia.
    + rewrite (bool_decide_eq_false_2 (0 ≤ r + -1 < n)) by lia. simpl.
      rewrite decide_False; [done|].
      rewrite <- (Hadj (r - 1) c); lia.
Qed.

Lemma targets_neighbours :
  targets n bp = filter (adjacent n bp) (neighbours n bp).
Proof.
  unfold targets, delta, neighbours.
  cbn [omap list_omap]. rewrite !target_neighbour by (unfold delta; repeat constructor).
  cbn [fst snd]. rewrite !filter_cons, filter_nil.
  replace (bp + (0 * n + 1)) with (bp + 1) by lia.
  replace (bp + (1 * n + 0)) with (bp + n) by lia.
  replace (bp + (0 * n + -1)) with (bp - 1) by lia.
  replace (bp + (-1 * n + 0)) with (bp - n) by lia.
  by repeat case_decide.
Qed.
End Neighbours.

(** X1.  Every state returned by [get_successors] on a valid state is valid itself:
    same width, tiles a permutation of [1..n*n], [blank_pos] the index of the
    blank. *)
Theorem get_successors_valid h state n tl items bp :
  valid_state h state n tl items bp →
  ∃ succs h',
    get_successors state h = (Ok succs, h') ∧
    ∀ s', s' ∈ succs →
      ∃ tl' items' bp', valid_state h' s' n tl' items' bp'.
Proof.
  intros Hv.
  destruct (get_successors_spec Hv) as (news & h' & Hrun & _ & _ & Hall).
  exists news.*1, h'. split; [done|].
  intros s' Hs'. apply list_elem_of_fmap in Hs' as (p & -> & Hp).
  apply list_elem_of_lookup in Hp as [i Hi].
  destruct (Forall2_lookup_l _ _ _ _ _ Hall Hi) as (t & Ht & Hat).
  apply list_elem_of_lookup_2 in Ht.
  apply list_elem_of_omap in Ht as (d & Hd & Ht).
  exists p.2, (slide n items bp t), t. by eapply successor_valid.
Qed.

Lemma get_successors_valid_witness :
  ∃ succs h',
    get_successors 1%nat store2 = (Ok succs, h') ∧
    ∀ s', s' ∈ succs →
      ∃ tl' items' bp', valid_state h' s' 2 tl' items' bp'.
Proof.
  apply (get_successors_valid store2 1%nat 2 0%nat [1; 2; 3; 4] 3).
  split; [reflexivity | reflexivity | lia | reflexivity | lia | reflexivity].
Defined.

(** X2.  The successors come in the order right, below, left, above: their blank
    positions are the cells of [bp + 1, bp + n, bp - 1, bp - n] that are
    adjacent to [bp] on the board, in that order. *)
Theorem get_successors_order h state n tl items bp :
  valid_state h state n tl items bp →
  ∃ succs h',
    get_successors state h = (Ok succs, h') ∧
    Forall2 (λ s' t, ∃ st, h' !! s' = Some (StateObj st) ∧
                           blank_pos st = Some t)
            succs (filter (adjacent n bp) (neighbours n bp)).
Proof.
  intros Hv.
  destruct (get_successors_spec Hv) as (news & h' & Hrun & _ & _ & Hall).
  exists news.*1, h'. split; [done|].
  rewrite <- targets_neighbours
    by (apply (valid_size _ _ _ _ _ _ Hv) || apply (valid_bp_range Hv)).
  apply Forall2_fmap_l. eapply Forall2_impl; [done|].
  intros p t (_ & _ & Hs & _). by eexists.
Qed.

Lemma get_successors_order_witness :
  ∃ succs h',
    get_successors 1%nat store2 = (Ok succs, h') ∧
    Forall2 (λ s' t, ∃ st, h' !! s' = Some (StateObj st) ∧
                           blank_pos st = Some t)
            succs (filter (adjacent 2 3) (neighbours 2 3)).
Proof.
  apply (get_successors_order store2 1%nat 2 0%nat [1; 2; 3; 4] 3).
  split; [reflexivity | reflexivity | lia | reflexivity | lia | reflexivity].
Defined.

(** X3.  [get_successors(GemPuzzleState())] raises [TypeError] (on [None // None])
    and leaves the store as the constructor left it. *)
Theorem get_successors_without_tiles h :
  ∃ state h1,
    GemPuzzleState_init None h = (Ok state, h1) ∧
    get_successors state h1 = (Raise TypeError, h1).
Proof.
  eexists _, _. split; [apply init_None|].
  unfold get_successors, delta. cbn [for_each].
  erewrite bind_fail; [reflexivity|].
  unfold successors_body.
  step_with get_blank_pos_run. reflexivity.
Qed.

Lemma slide_back n items bp t :
  0 ≤ bp → 0 ≤ t → t ≠ bp →
  items !! Z.to_nat bp = Some (n * n) → is_Some (items !! Z.to_nat t) →
  slide n (slide n items bp t) t bp = items.
Proof.
  intros Hbp Ht Hne Hb [v Hv].
  assert (Z.to_nat bp ≠ Z.to_nat t) by lia.
  pose proof (lookup_lt_Some _ _ _ Hb). pose proof (lookup_lt_Some _ _ _ Hv).
  unfold slide at 1.
  assert (slide n items bp t !! Z.to_nat bp = Some v) as ->.
  { unfold slide. rewrite Hv. simpl.
    rewrite list_lookup_insert_ne by done. by rewrite list_lookup_insert_eq. }
  simpl. unfold slide. rewrite Hv. simpl.
  apply list_eq. intros k.
  destruct (decide (k = Z.to_nat bp)) as [->|].
  - rewrite list_lookup_insert_eq by (by rewrite !length_insert).
    rewrite Hb. f_equal. lia.
  - rewrite list_lookup_insert_ne by done.
    destruct (decide (k = Z.to_nat t)) as [->|].
    + rewrite list_lookup_insert_eq by (by rewrite !length_insert). done.
    + by rewrite !list_lookup_insert_ne.
Qed.

Lemma adjacent_sym n a b : adjacent n a b → adjacent n b a.
Proof. unfold adjacent. intros (? & ? & ?). split_and!; lia. Qed.

Lemma neighbours_sym n a b : b ∈ neighbours n a → a ∈ neighbours n b.
Proof.
  unfold neighbours. intros Hb.
  repeat (apply elem_of_cons in Hb as [->|Hb]); [..|by apply elem_of_nil in Hb].
  - replace a with (a + 1 - 1) at 1 by lia. repeat constructor.
  - replace a with (a + n - n) at 1 by lia. repeat constructor.
  - replace a with (a - 1 + 1) at 1 by lia. repeat constructor.
  - replace a with (a - n + n) at 1 by lia. repeat constructor.
Qed.

(** X4.  Every move can be undone: among the successors of each successor of a
    valid state there is a state with the tiles and blank position of the
    state the first call started from. *)
Theorem get_successors_reversible h state n tl items bp :
  valid_state h state n tl items bp →
  ∃ succs h',
    get_successors state h = (Ok succs, h') ∧
    ∀ s', s' ∈ succs →
      ∃ back h'',
        get_successors s' h' = (Ok back, h'') ∧
        ∃ s'' tl'',
          s'' ∈ back ∧
          h'' !! s'' =
            Some (StateObj (mkState (Some n) (Some tl'') (Some bp))) ∧
          h'' !! tl'' = Some (ListObj items).
Proof.
  intros Hv.
  destruct (get_successors_spec Hv) as (news & h' & Hrun & _ & _ & Hall).
  pose proof (valid_len Hv) as Hlen. pose proof (valid_bp_range Hv) as Hbp.
  pose proof (valid_size _ _ _ _ _ _ Hv) as Hn.
  pose proof (valid_blank _ _ _ _ _ _ Hv) as Hb.
  exists news.*1, h'. split; [done|].
  intros s' Hs'. apply list_elem_of_fmap in Hs' as (p & -> & Hp).
  apply list_elem_of_lookup in Hp as [i Hi].
  destruct (Forall2_lookup_l _ _ _ _ _ Hall Hi) as (t & Ht & Hat).
  apply list_elem_of_lookup_2 in Ht.
  assert (t ∈ neighbours n bp ∧ adjacent n bp t) as [Hnb Hadj].
  { rewrite targets_neighbours in Ht by done.
    by apply list_elem_of_filter in Ht as [? ?]. }
  apply list_elem_of_omap in Ht as (d & Hd & Ht).
  pose proof (successor_valid _ _ _ _ _ _ _ _ _ _ Hv Hd Ht Hat) as Hv'.
  destruct (target_adjacent n bp d t) as [_ Hne]; [lia | done..|].
  destruct (get_successors_spec Hv') as (back & h'' & Hrun' & _ & _ & Hall').
  exists back.*1, h''. split; [done|].
  assert (bp ∈ targets n t) as Hin.
  { rewrite targets_neighbours by (done || unfold adjacent in Hadj; lia).
    apply list_elem_of_filter. split; [by apply adjacent_sym|].
    by apply neighbours_sym. }
  apply list_elem_of_lookup in Hin as [j Hj].
  destruct (Forall2_lookup_r _ _ _ _ _ Hall' Hj) as (q & Hq & _ & _ & Hs & Hl).
  exists q.1, q.2. split_and!; [| done |].
  - apply list_elem_of_fmap. exists q. split; [done|].
    by eapply list_elem_of_lookup_2.
  - rewrite Hl. do 2 f_equal.
    apply slide_back; [lia | unfold adjacent in Hadj; lia | done | done |].
    apply lookup_lt_is_Some_2. unfold adjacent in Hadj. unfold len in Hlen. lia.
Qed.

Lemma get_successors_reversible_witness :
  ∃ succs h',
    get_successors 1%nat store2 = (Ok succs, h') ∧
    ∀ s', s' ∈ succs →
      ∃ back h'',
        get_successors s' h' = (Ok back, h'') ∧
        ∃ s'' tl'',
          s'' ∈ back ∧
          h'' !! s'' =
            Some (StateObj (mkState (Some 2) (Some tl'') (Some 3))) ∧
          h'' !! tl'' = Some (ListObj [1; 2; 3; 4]).
Proof.
  apply (get_successors_reversible store2 1%nat 2 0%nat [1; 2; 3; 4] 3).
  split; [reflexivity | reflexivity | lia | reflexivity | lia | reflexivity].
Defined.

Lemma init_inv h0 tl items state h :
  h0 !! tl = Some (ListObj items) →
  GemPuzzleState_init (Some tl) h0 = (Ok state, h) →
  ∃ k i,
    0 < k ∧ k * k = len items ∧ index (k * k) items = Some i ∧
    h0 !! state = None ∧
    h = <[state := StateObj (mkState (Some k) (Some tl)
                                     (Some (Z.of_nat i)))]> h0.
Proof.
  intros Htl Hrun. set (k := isqrt (len items)).
  assert (0 ≤ k) as Hk0 by apply Z.sqrt_nonneg.
  destruct (decide (k * k = len items)) as [Hsq|Hsq]; last first.
  { pose proof (init_shape_error h0 tl items Htl) as Herr.
    rewrite Hrun in Herr. discriminate Herr.
    intros Hp. apply perfect_square_isqrt in Hp. fold k in Hp. lia. }
  destruct (index (k * k) items) as [i|] eqn:Hi; last first.
  { apply index_None in Hi.
    pose proof (init_blank_error h0 tl items k Htl Hk0 Hsq Hi) as Herr.
    rewrite Hrun in Herr. discriminate Herr. }
  rewrite (init_ok h0 tl items k i) in Hrun by done.
  injection Hrun as <- <-. exists k, i.
  split_and!; [|done|done|apply fresh_None|done].
  apply index_lt in Hi. unfold len in Hsq. nia.
Qed.

(** X5.  [get_successors] does not raise on any state the constructor returned,
    also when the tiles are no permutation: it returns at most 4 states, none
    for a one-cell board, at least 2 for boards of 4 cells or more. *)
Theorem get_successors_after_init h0 tl items state h :
  h0 !! tl = Some (ListObj items) →
  GemPuzzleState_init (Some tl) h0 = (Ok state, h) →
  ∃ succs h',
    get_successors state h = (Ok succs, h') ∧
    (length succs ≤ 4)%nat ∧
    (len items = 1 → succs = []) ∧
    (4 ≤ len items → (2 ≤ length succs)%nat).
Proof.
  intros Htl Hrun.
  destruct (init_inv _ _ _ _ _ Htl Hrun) as (k & i & Hk & Hsq & Hi & Hf & ->).
  assert (state ≠ tl) by congruence.
  pose proof (index_lt _ _ _ Hi) as Hlt.
  destruct (successors_loop delta
              (<[state := StateObj (mkState (Some k) (Some tl)
                                            (Some (Z.of_nat i)))]> h0)
              state tl items k (Z.of_nat i) [])
    as (news & h' & Hsucc & _ & _ & Hall).
  { apply lookup_insert_eq. }
  { by rewrite lookup_insert_ne. }
  { done. }
  { done. }
  { unfold len in Hsq. lia. }
  exists news.*1, h'. split; [done|].
  fold (targets k (Z.of_nat i)) in Hall.
  rewrite length_fmap, (Forall2_length _ _ _ Hall).
  split_and!.
  - apply targets_le_4.
  - intros H1. assert (k = 1) as -> by nia.
    assert (i = 0%nat) as -> by (unfold len in H1; lia).
    apply Forall2_nil_inv_r in Hall. by subst.
  - intros H4. apply targets_bounds; [nia | unfold len in Hsq; lia].
Qed.

Lemma get_successors_after_init_witness :
  ∃ succs h',
    get_successors 1%nat
      (<[1%nat := StateObj (mkState (Some 2) (Some 0%nat) (Some 0))]>
         {[0%nat := ListObj [4; 4; 1; 2]]}) = (Ok succs, h') ∧
    (length succs ≤ 4)%nat ∧
    (len [4; 4; 1; 2] = 1 → succs = []) ∧
    (4 ≤ len [4; 4; 1; 2] → (2 ≤ length succs)%nat).
Proof.
  apply (get_successors_after_init {[0%nat := ListObj [4; 4; 1; 2]]} 0%nat
           [4; 4; 1; 2] 1%nat); vm_compute; reflexivity.
Defined.

Lemma init_valid_run h tl items n :
  h !! tl = Some (ListObj items) →
  2 ≤ n → items ≡ₚ seqZ 1 (n * n) →
  ∃ state bp h',
    h !! state = None ∧
    GemPuzzleState_init (Some tl) h = (Ok state, h') ∧
    h ⊆ h' ∧
    valid_state h' state n tl items bp.
Proof.
  intros Htl Hn Hperm.
  assert (len items = n * n) as Hlen.
  { unfold len. rewrite Hperm, length_seqZ. nia. }
  destruct (index_is_Some (n * n) items) as [i Hi].
  { rewrite Hperm, elem_of_seqZ. nia. }
  pose proof (fresh_None h) as Hf.
  assert (fresh (dom h) ≠ tl) by congruence.
  eexists (fresh (dom h)), (Z.of_nat i), _.
  split_and!; [done | by apply (init_ok h tl items n i); try lia | |].
  - by apply insert_subseteq.
  - split; [apply lookup_insert_eq | by rewrite lookup_insert_ne
            | done | done | lia |].
    rewrite Nat2Z.id. by apply index_Some in Hi as [? _].
Qed.

(** X6.  On a permutation of [1..n*n], [n >= 2], the constructor succeeds, yields a
    valid state that refers to the very list it was given, and changes no
    object already in the store. *)
Theorem init_valid h tl items n :
  h !! tl = Some (ListObj items) →
  2 ≤ n → items ≡ₚ seqZ 1 (n * n) →
  ∃ state bp h',
    h !! state = None ∧
    GemPuzzleState_init (Some tl) h = (Ok state, h') ∧
    (∀ l o, h !! l = Some o → h' !! l = Some o) ∧
    valid_state h' state n tl items bp.
Proof.
  intros Htl Hn Hperm.
  destruct (init_valid_run h tl items n Htl Hn Hperm)
    as (state & bp & h' & Hf & Hrun & Hsub & Hv).
  exists state, bp, h'. split_and!; [done | done | | done].
  intros l o Hl. by eapply lookup_weaken.
Qed.

Lemma init_valid_witness :
  ∃ state bp h',
    ({[0%nat := ListObj [2; 1; 4; 3]]} : gmap loc obj) !! state = None ∧
    GemPuzzleState_init (Some 0%nat) {[0%nat := ListObj [2; 1; 4; 3]]}
      = (Ok state, h') ∧
    (∀ l o, ({[0%nat := ListObj [2; 1; 4; 3]]} : gmap loc obj) !! l = Some o →
            h' !! l = Some o) ∧
    valid_state h' state 2 0%nat [2; 1; 4; 3] bp.
Proof.
  apply (init_valid {[0%nat := ListObj [2; 1; 4; 3]]} 0%nat [2; 1; 4; 3] 2);
    [reflexivity | lia |].
  change (seqZ 1 (2 * 2)) with [1; 2; 3; 4].
  apply perm_trans with [1; 2; 4; 3]; [apply perm_swap|].
  do 2 apply perm_skip. apply perm_swap.
Defined.

Section NoTiles.
Variable str_hash : string → Z.

(** X7.  Hashing a state built by [GemPuzzleState()] raises [AttributeError], and
    so does comparing it with anything. *)
Theorem hash_eq_without_tiles h other :
  ∃ state h1,
    GemPuzzleState_init None h = (Ok state, h1) ∧
    GemPuzzleState_hash str_hash state h1 = (Raise AttributeError, h1) ∧
    GemPuzzleState_eq str_hash state other h1 = (Raise AttributeError, h1).
Proof.
  eexists _, _. split; [apply init_None|].
  assert (GemPuzzleState_hash str_hash (fresh (dom h))
            (<[fresh (dom h) := StateObj (mkState None None None)]> h) =
          (Raise AttributeError,
           <[fresh (dom h) := StateObj (mkState None None None)]> h)) as Hh.
  { unfold GemPuzzleState_hash. erewrite bind_fail; [reflexivity|].
    eapply get_tile_list_unset; [apply lookup_insert_eq | done]. }
  split; [done|].
  unfold GemPuzzleState_eq. by erewrite bind_fail.
Qed.
End NoTiles.

Section Distance.
Implicit Types (h : gmap loc obj) (l : list Z).

Lemma cell_dist_nonneg n p q : 0 ≤ cell_dist n p q.
Proof. unfold cell_dist. lia. Qed.

Lemma cell_dist_zero n p q : 0 < n → cell_dist n p q = 0 → p = q.
Proof.
  unfold cell_dist. intros Hn Hd.
  rewrite (Z.div_mod p n), (Z.div_mod q n) by lia.
  assert (p `div` n = q `div` n) as -> by lia.
  assert (p `mod` n = q `mod` n) as -> by lia. done.
Qed.

Lemma cell_dist_refl n p : cell_dist n p p = 0.
Proof. unfold cell_dist. lia. Qed.

Lemma cell_dist_triangle n p q r :
  cell_dist n p r ≤ cell_dist n p q + cell_dist n q r.
Proof. unfold cell_dist. lia. Qed.

Lemma cell_dist_bound n p q :
  0 < n → 0 ≤ p < n * n → 0 ≤ q < n * n → cell_dist n p q ≤ 2 * (n - 1).
Proof.
  intros Hn Hp Hq. unfold cell_dist.
  pose proof (Z.mod_pos_bound p n Hn). pose proof (Z.mod_pos_bound q n Hn).
  assert (0 ≤ p `div` n < n).
  { split; [apply Z.div_pos; lia | apply Z.div_lt_upper_bound; lia]. }
  assert (0 ≤ q `div` n < n).
  { split; [apply Z.div_pos; lia | apply Z.div_lt_upper_bound; lia]. }
  lia.
Qed.

Lemma tile_dist_nonneg n l1 l2 t : 0 ≤ tile_dist n l1 l2 t.
Proof. unfold tile_dist. case_decide; [apply cell_dist_nonneg | done]. Qed.

Lemma tile_dist_triangle n l1 l2 l3 t :
  tile_dist n l1 l3 t ≤ tile_dist n l1 l2 t + tile_dist n l2 l3 t.
Proof.
  unfold tile_dist. case_decide; [apply cell_dist_triangle | done].
Qed.

Lemma pos_in_range l t : t ∈ l → 0 ≤ pos_in l t < len l.
Proof.
  intros Ht. destruct (index_is_Some t l Ht) as [i Hi].
  unfold pos_in, len. rewrite Hi. simpl. apply index_lt in Hi. lia.
Qed.

Lemma sumZ_cons x l : sumZ (x :: l) = x + sumZ l.
Proof. reflexivity. Qed.

Lemma sumZ_nonneg (f : Z → Z) l :
  (∀ x, 0 ≤ f x) → 0 ≤ sumZ (f <$> l).
Proof.
  intros Hf. induction l as [|x l IH]; [done|].
  rewrite fmap_cons, sumZ_cons. specialize (Hf x). lia.
Qed.

Lemma sumZ_zero (f : Z → Z) l :
  (∀ x, 0 ≤ f x) → sumZ (f <$> l) = 0 → ∀ x, x ∈ l → f x = 0.
Proof.
  intros Hf. induction l as [|y l IH]; intros Hs x Hx.
  - by apply elem_of_nil in Hx.
  - rewrite fmap_cons, sumZ_cons in Hs.
    pose proof (sumZ_nonneg f l Hf) as Hl. pose proof (Hf y).
    apply elem_of_cons in Hx as [->|Hx]; [lia|].
    apply IH; [lia | done].
Qed.

Lemma sumZ_all_zero (f : Z → Z) l :
  (∀ x, x ∈ l → f x = 0) → sumZ (f <$> l) = 0.
Proof.
  induction l as [|y l IH]; intros Hf; [done|].
  rewrite fmap_cons, sumZ_cons, (Hf y) by left. rewrite IH; [done|].
  intros x Hx. apply Hf. by right.
Qed.

Lemma sumZ_le (f g : Z → Z) l :
  (∀ x, x ∈ l → f x ≤ g x) → sumZ (f <$> l) ≤ sumZ (g <$> l).
Proof.
  induction l as [|y l IH]; intros Hf; [done|].
  rewrite !fmap_cons, !sumZ_cons. pose proof (Hf y ltac:(left)).
  assert (sumZ (f <$> l) ≤ sumZ (g <$> l)) as Hl.
  { apply IH. intros x Hx. apply Hf. by right. }
  lia.
Qed.

Lemma sumZ_add (f g : Z → Z) l :
  sumZ ((λ x, f x + g x) <$> l) = sumZ (f <$> l) + sumZ (g <$> l).
Proof.
  induction l as [|y l IH]; [done|]. rewrite !fmap_cons, !sumZ_cons, IH. lia.
Qed.

Lemma sumZ_const c l : sumZ ((λ _, c) <$> l) = c * len l.
Proof.
  induction l as [|y l IH]; [unfold len; cbn; lia|].
  rewrite fmap_cons, sumZ_cons, IH. unfold len. cbn [length]. lia.
Qed.

(** A sum in which a single element of a duplicate-free list counts. *)
Lemma sumZ_single (f : Z → Z) l v :
  NoDup l → v ∈ l → (∀ x, x ∈ l → x ≠ v → f x = 0) →
  sumZ (f <$> l) = f v.
Proof.
  intros Hnd Hv Hf. apply elem_of_Permutation in Hv as [l' Hl'].
  rewrite (sumZ_perm (f <$> l) (f <$> (v :: l')))
    by (by apply fmap_Permutation).
  rewrite Hl' in Hnd. apply NoDup_cons in Hnd as [Hv _].
  rewrite fmap_cons, sumZ_cons, sumZ_all_zero; [lia|].
  intros x Hx. apply Hf; [rewrite Hl'; by right|]. by intros ->.
Qed.

Lemma valid_state_weaken h h' state n tl items bp :
  h ⊆ h' → valid_state h state n tl items bp →
  valid_state h' state n tl items bp.
Proof.
  intros Hsub [H1 H2 H3 H4 H5 H6].
  split; [by eapply lookup_weaken | by eapply lookup_weaken | done..].
Qed.

End Distance.

Lemma tile_dist_sum_zero_iff n ia ib :
  0 < n → ia ≡ₚ seqZ 1 (n * n) → ib ≡ₚ seqZ 1 (n * n) →
  sumZ (tile_dist n ia ib <$> ia) = 0 ↔ ia = ib.
Proof.
  intros Hn Hpa Hpb.
  assert (NoDup ia) as Hnda by (rewrite Hpa; apply NoDup_seqZ).
  assert (NoDup ib) as Hndb by (rewrite Hpb; apply NoDup_seqZ).
  assert (length ia = length ib) as Hlen by (by rewrite Hpa, Hpb).
  assert (∀ t, t ∈ ia ↔ t ∈ ib) as Hmem by (intros t; by rewrite Hpa, Hpb).
  split.
  - intros Hz.
    assert (∀ t, t ∈ ia → t ≠ n * n → pos_in ia t = pos_in ib t) as Hpos.
    { intros t Ht Hne.
      pose proof (sumZ_zero _ _ (tile_dist_nonneg n ia ib) Hz t Ht) as Hd.
      unfold tile_dist in Hd. rewrite decide_True in Hd by done.
      by apply (cell_dist_zero n). }
    assert (∀ i t, ia !! i = Some t → t ≠ n * n → ib !! i = Some t) as Hsame.
    { intros i t Hi Hne.
      assert (t ∈ ia) as Hin by (by eapply list_elem_of_lookup_2).
      assert (t ∈ ib) as Hin' by (by apply Hmem).
      apply list_elem_of_lookup in Hin' as [j Hj].
      specialize (Hpos t Hin Hne).
      rewrite (pos_in_lookup ia i t), (pos_in_lookup ib j t) in Hpos by done.
      by replace i with j by lia. }
    apply list_eq. intros i.
    destruct (ia !! i) as [t|] eqn:Hi; last first.
    { apply lookup_ge_None in Hi. symmetry. apply lookup_ge_None. lia. }
    destruct (decide (t = n * n)) as [->|Hne]; [|symmetry; by apply Hsame].
    destruct (ib !! i) as [x|] eqn:Hx; last first.
    { apply lookup_ge_None in Hx. apply lookup_lt_Some in Hi. lia. }
    destruct (decide (x = n * n)) as [->|Hxne]; [done|]. exfalso.
    assert (x ∈ ia) as Hin.
    { apply Hmem. by eapply list_elem_of_lookup_2. }
    apply list_elem_of_lookup in Hin as [j Hj].
    pose proof (Hsame j x Hj Hxne) as Hj'.
    assert (j = i) as -> by (by apply (NoDup_lookup ib j i x)).
    congruence.
  - intros <-. apply sumZ_all_zero. intros t _. unfold tile_dist.
    case_decide; [apply cell_dist_refl | done].
Qed.

(** X8.  The Manhattan distance of two valid states of one width is 0 exactly when
    their tile sequences are equal. *)
Theorem manhattan_distance_zero_iff h a b n tla tlb ia ib bpa bpb :
  valid_state h a n tla ia bpa → valid_state h b n tlb ib bpb →
  ∃ dist,
    manhattan_distance a b h = (Ok dist, h) ∧
    (dist = 0 ↔ ia = ib).
Proof.
  intros Ha Hb. exists (sumZ (tile_dist n ia ib <$> ia)).
  split; [by eapply manhattan_run|].
  apply tile_dist_sum_zero_iff;
    [pose proof (valid_size _ _ _ _ _ _ Ha); lia | apply Ha | apply Hb].
Qed.

Lemma manhattan_distance_zero_iff_witness :
  ∃ dist,
    manhattan_distance 1%nat 3%nat store3 = (Ok dist, store3) ∧
    (dist = 0 ↔ [1; 2; 3; 4] = [1; 2; 4; 3]).
Proof.
  apply (manhattan_distance_zero_iff store3 1%nat 3%nat 2 0%nat 2%nat
           [1; 2; 3; 4] [1; 2; 4; 3] 3 2).
  - split; [reflexivity | reflexivity | lia | reflexivity | lia | reflexivity].
  - split; [reflexivity | reflexivity | lia | | lia | reflexivity].
    change (seqZ 1 (2 * 2)) with [1; 2; 3; 4].
    do 2 apply perm_skip. apply perm_swap.
Defined.

(** X9.  The Manhattan distance of two valid states of width [n] lies between 0
    and [2 * (n - 1) * (n * n - 1)]. *)
Theorem manhattan_distance_bounds h a b n tla tlb ia ib bpa bpb :
  valid_state h a n tla ia bpa → valid_state h b n tlb ib bpb →
  ∃ dist,
    manhattan_distance a b h = (Ok dist, h) ∧
    0 ≤ dist ≤ 2 * (n - 1) * (n * n - 1).
Proof.
  intros Ha Hb. exists (sumZ (tile_dist n ia ib <$> ia)).
  split; [by eapply manhattan_run|].
  split; [apply sumZ_nonneg, tile_dist_nonneg|].
  pose proof (valid_size _ _ _ _ _ _ Ha) as Hn.
  pose proof (valid_len Ha) as Hla. pose proof (valid_len Hb) as Hlb.
  pose proof (valid_NoDup Ha) as Hnda.
  assert (n * n ∈ ia) as Hblank by (apply (valid_elem Ha); nia).
  apply elem_of_Permutation in Hblank as [l' Hl'].
  rewrite (sumZ_perm _ (tile_dist n ia ib <$> (n * n :: l')))
    by (by apply fmap_Permutation).
  assert (len l' = n * n - 1) as Hlen'.
  { unfold len in *. rewrite Hl' in Hla. cbn [length] in Hla. lia. }
  rewrite Hl' in Hnda. apply NoDup_cons in Hnda as [Hnotin _].
  rewrite fmap_cons, sumZ_cons.
  unfold tile_dist at 1. rewrite decide_False by (intros Hc; by apply Hc).
  etrans; [apply Z.add_le_mono_l, (sumZ_le _ (λ _, 2 * (n - 1)))|].
  - intros t Ht. unfold tile_dist. case_decide; [|lia].
    assert (t ∈ ia) as Hin by (rewrite Hl'; by right).
    assert (t ∈ ib) as Hin' by (by apply (valid_elem Hb), (valid_elem Ha)).
    apply pos_in_range in Hin, Hin'. apply cell_dist_bound; lia.
  - rewrite sumZ_const, Hlen'. lia.
Qed.

Lemma manhattan_distance_bounds_witness :
  ∃ dist,
    manhattan_distance 1%nat 3%nat store3 = (Ok dist, store3) ∧
    0 ≤ dist ≤ 2 * (2 - 1) * (2 * 2 - 1).
Proof.
  apply (manhattan_distance_bounds store3 1%nat 3%nat 2 0%nat 2%nat
           [1; 2; 3; 4] [1; 2; 4; 3] 3 2).
  - split; [reflexivity | reflexivity | lia | reflexivity | lia | reflexivity].
  - split; [reflexivity | reflexivity | lia | | lia | reflexivity].
    change (seqZ 1 (2 * 2)) with [1; 2; 3; 4].
    do 2 apply perm_skip. apply perm_swap.
Defined.

(** X10.  The Manhattan distance obeys the triangle inequality on valid states of
    one width. *)
Theorem manhattan_distance_triangle h a b c n tla tlb tlc ia ib ic
    bpa bpb bpc :
  valid_state h a n tla ia bpa → valid_state h b n tlb ib bpb →
  valid_state h c n tlc ic bpc →
  ∃ dab dbc dac,
    manhattan_distance a b h = (Ok dab, h) ∧
    manhattan_distance b c h = (Ok dbc, h) ∧
    manhattan_distance a c h = (Ok dac, h) ∧
    dac ≤ dab + dbc.
Proof.
  intros Ha Hb Hc.
  exists (sumZ (tile_dist n ia ib <$> ia)), (sumZ (tile_dist n ib ic <$> ib)),
         (sumZ (tile_dist n ia ic <$> ia)).
  split_and!; [by eapply manhattan_run..|].
  rewrite (sumZ_perm (tile_dist n ib ic <$> ib) (tile_dist n ib ic <$> ia)).
  - rewrite <- sumZ_add. apply sumZ_le. intros t _. apply tile_dist_triangle.
  - apply fmap_Permutation.
    rewrite (valid_perm _ _ _ _ _ _ Ha), (valid_perm _ _ _ _ _ _ Hb). done.
Qed.

Lemma manhattan_distance_triangle_witness :
  ∃ dab dbc dac,
    manhattan_distance 1%nat 3%nat store3 = (Ok dab, store3) ∧
    manhattan_distance 3%nat 1%nat store3 = (Ok dbc, store3) ∧
    manhattan_distance 1%nat 1%nat store3 = (Ok dac, store3) ∧
    dac ≤ dab + dbc.
Proof.
  apply (manhattan_distance_triangle store3 1%nat 3%nat 1%nat 2 0%nat 2%nat
           0%nat [1; 2; 3; 4] [1; 2; 4; 3] [1; 2; 3; 4] 3 2 3).
  - split; [reflexivity | reflexivity | lia | reflexivity | lia | reflexivity].
  - split; [reflexivity | reflexivity | lia | | lia | reflexivity].
    change (seqZ 1 (2 * 2)) with [1; 2; 3; 4].
    do 2 apply perm_skip. apply perm_swap.
  - split; [reflexivity | reflexivity | lia | reflexivity | lia | reflexivity].
Defined.

Lemma manhattan_sum_sym n l1 l2 :
  l1 ≡ₚ l2 →
  sumZ (tile_dist n l2 l1 <$> l2) = sumZ (tile_dist n l1 l2 <$> l1).
Proof.
  intros Hp.
  rewrite (list_fmap_ext _ (tile_dist n l1 l2) l2)
    by (intros; apply tile_dist_sym).
  symmetry. by apply sumZ_perm, fmap_Permutation.
Qed.

Lemma slide_distance n items bp t :
  2 ≤ n → items ≡ₚ seqZ 1 (n * n) →
  0 ≤ bp → items !! Z.to_nat bp = Some (n * n) →
  adjacent n bp t → t ≠ bp →
  sumZ (tile_dist n items (slide n items bp t) <$> items) = 1.
Proof.
  intros Hn Hperm Hbp Hb Hadj Hne.
  assert (NoDup items) as Hnd by (rewrite Hperm; apply NoDup_seqZ).
  assert (length items = Z.to_nat (n * n)) as Hlen
    by (by rewrite Hperm, length_seqZ).
  destruct (lookup_lt_is_Some_2 items (Z.to_nat t)) as [v Hv];
    [unfold adjacent in Hadj; lia|].
  assert (0 ≤ t) as Ht by (unfold adjacent in Hadj; lia).
  destruct (slide_swapped n items bp t Hbp Ht Hne Hb)
    as (Hij & _ & _ & Hlen' & Hi & Hj & Hk); [by eauto|].
  assert (NoDup (slide n items bp t)) as Hnd'.
  { rewrite slide_perm; eauto. }
  assert (v ≠ n * n) as Hvb.
  { intros ->. apply Hij. by apply (NoDup_lookup items _ _ (n * n)). }
  rewrite (sumZ_single _ items v Hnd); [| by eapply list_elem_of_lookup_2 |].
  - unfold tile_dist. rewrite decide_True by done.
    rewrite (pos_in_lookup items (Z.to_nat t) v) by done.
    rewrite (pos_in_lookup _ (Z.to_nat bp) v) by (done || by rewrite Hi).
    rewrite !Z2Nat.id by lia. rewrite cell_dist_sym.
    unfold adjacent in Hadj. unfold cell_dist. lia.
  - intros x Hx Hxv. unfold tile_dist. case_decide as Hxb; [|done].
    apply list_elem_of_lookup in Hx as [k Hk'].
    assert (k ≠ Z.to_nat bp) by congruence.
    assert (k ≠ Z.to_nat t) by congruence.
    rewrite (pos_in_lookup items k x), (pos_in_lookup _ k x);
      [apply cell_dist_refl | done | by rewrite Hk | done..].
Qed.

(** X11.  Each successor of a valid state is at Manhattan distance exactly 1 from
    it, in both argument orders. *)
Theorem manhattan_distance_successor h state n tl items bp :
  valid_state h state n tl items bp →
  ∃ succs h',
    get_successors state h = (Ok succs, h') ∧
    ∀ s', s' ∈ succs →
      manhattan_distance state s' h' = (Ok 1, h') ∧
      manhattan_distance s' state h' = (Ok 1, h').
Proof.
  intros Hv.
  destruct (get_successors_spec Hv) as (news & h' & Hrun & Hsub & _ & Hall).
  exists news.*1, h'. split; [done|].
  intros s' Hs'. apply list_elem_of_fmap in Hs' as (p & -> & Hp).
  apply list_elem_of_lookup in Hp as [i Hi].
  destruct (Forall2_lookup_l _ _ _ _ _ Hall Hi) as (t & Ht & Hat).
  apply list_elem_of_lookup_2 in Ht.
  apply list_elem_of_omap in Ht as (d & Hd & Ht).
  pose proof (successor_valid _ _ _ _ _ _ _ _ _ _ Hv Hd Ht Hat) as Hv'.
  pose proof (valid_state_weaken _ _ _ _ _ _ _ Hsub Hv) as Hv0.
  pose proof (valid_bp_range Hv) as Hbp.
  destruct (target_adjacent n bp d t) as [Hadj Hne];
    [pose proof (valid_size _ _ _ _ _ _ Hv); lia | done..|].
  assert (sumZ (tile_dist n items (slide n items bp t) <$> items) = 1) as H1.
  { apply slide_distance; [apply Hv | apply Hv | lia | apply Hv | done..]. }
  split.
  - by rewrite (manhattan_run h' state p.1 n _ _ _ _ _ _ Hv0 Hv'), H1.
  - rewrite (manhattan_run h' p.1 state n _ _ _ _ _ _ Hv' Hv0).
    rewrite manhattan_sum_sym, H1; [done|].
    etrans; [apply (valid_perm _ _ _ _ _ _ Hv0)|].
    symmetry. apply (valid_perm _ _ _ _ _ _ Hv').
Qed.

Lemma manhattan_distance_successor_witness :
  ∃ succs h',
    get_successors 1%nat store2 = (Ok succs, h') ∧
    ∀ s', s' ∈ succs →
      manhattan_distance 1%nat s' h' = (Ok 1, h') ∧
      manhattan_distance s' 1%nat h' = (Ok 1, h').
Proof.
  apply (manhattan_distance_successor store2 1%nat 2 0%nat [1; 2; 3; 4] 3).
  split; [reflexivity | reflexivity | lia | reflexivity | lia | reflexivity].
Defined.

Section MissingTile.
Implicit Types (h : gmap loc obj) (l : list Z).

Lemma positions_dict_None b l t : t ∉ l → positions_dict b l !! t = None.
Proof.
  induction l as [|x l IH] using rev_ind; intros Ht; [done|].
  apply not_elem_of_app in Ht as [Ht Hx]. rewrite positions_dict_snoc.
  case_decide; [rewrite lookup_insert_ne|]; try by apply IH.
  intros ->. apply Hx. left.
Qed.

Lemma distance_loop_keyerror n b (positions : gmap Z nat) ps : ∀ acc h,
  n ≠ 0 →
  (∃ p t, (p, t) ∈ ps ∧ t ≠ b ∧ positions !! t = None) →
  for_each (distance_body (Some n) b positions) ps acc h = (Raise KeyError, h).
Proof.
  induction ps as [|[p t] ps IH]; intros acc h Hn (p' & t' & Hin & Hb & Hnone).
  - by apply elem_of_nil in Hin.
  - cbn [for_each]. unfold distance_body at 1.
    destruct (decide (t ≠ b)) as [Htb|Htb].
    + unfold dict_getitem. destruct (positions !! t) as [q|] eqn:Hq.
      * cbv beta iota. rewrite bind_assoc, bind_lift_ok. cbn [as_int].
        repeat first [rewrite bind_assoc | rewrite bind_lift_ok
                     | rewrite floordiv_ok by done | rewrite pymod_ok by done].
        rewrite bind_ret. apply IH; [done|].
        apply elem_of_cons in Hin as [[= <- <-]|Hin]; [congruence|].
        by exists p', t'.
      * reflexivity.
    + rewrite bind_ret. apply IH; [done|].
      apply elem_of_cons in Hin as [[= <- <-]|Hin]; [done|].
      by exists p', t'.
Qed.
End MissingTile.

(** X12.  [manhattan_distance] raises [KeyError], leaving the store alone, when the
    first state holds a tile other than its blank value that the second
    state's list lacks. *)
Theorem manhattan_distance_missing_tile h a b sa sb n tla tlb ia ib t :
  h !! a = Some (StateObj sa) → size sa = Some n → n ≠ 0 →
  tile_list sa = Some tla → h !! tla = Some (ListObj ia) →
  h !! b = Some (StateObj sb) →
  tile_list sb = Some tlb → h !! tlb = Some (ListObj ib) →
  t ∈ ia → t ≠ len ia → t ∉ ib →
  manhattan_distance a b h = (Raise KeyError, h).
Proof.
  intros Ha Hsz Hn Hta Hla Hb Htb Hlb Hin Hne Hnot.
  unfold manhattan_distance.
  step_with get_size_run. rewrite Hsz.
  step_with get_tile_list_run. step_with get_list_run.
  step_with get_tile_list_run. step_with get_list_run.
  step_with get_tile_list_run. step_with get_list_run.
  apply distance_loop_keyerror; [done|].
  apply list_elem_of_lookup in Hin as [i Hi].
  exists i, t. split_and!; [|done|by apply positions_dict_None].
  apply list_elem_of_lookup. exists i. unfold enumerate.
  by rewrite list_lookup_imap, Hi.
Qed.

Lemma manhattan_distance_missing_tile_witness :
  manhattan_distance 1%nat 3%nat store_missing = (Raise KeyError, store_missing).
Proof.
  apply (manhattan_distance_missing_tile store_missing 1%nat 3%nat
           (mkState (Some 2) (Some 0%nat) (Some 3))
           (mkState (Some 2) (Some 2%nat) (Some 3)) 2 0%nat 2%nat
           [1; 2; 3; 4] [1; 2; 5; 4] 3);
    try reflexivity; try (unfold len; simpl; lia).
  - apply list_elem_of_In. simpl. tauto.
  - intros H. apply list_elem_of_In in H. simpl in H. intuition lia.
Defined.

(** X13.  [is_solvable] raises nothing but the [ValueError] of [list.index],
    whose message names the length looked for, and raises it exactly when
    the integer square root of the length is even and the list does not
    contain its own length (the empty list included). *)
Theorem is_solvable_raises tiles :
  let e := ValueError (pretty (len tiles) +:+ " is not in list") in
  (∀ e', is_solvable tiles = Raise e' → e' = e) ∧
  (is_solvable tiles = Raise e ↔
   Z.even (isqrt (len tiles)) = true ∧ len tiles ∉ tiles).
Proof.
  intros e. subst e. unfold is_solvable.
  set (inv := count_inversions (puzzle_except_empty tiles)).
  set (sz := isqrt (len tiles)).
  rewrite mod2_ne_0_odd, mod2_eq_0_even, <- Z.negb_even.
  assert (sz = 0 → tiles = []) as Hz.
  { intros Hsz. apply length_zero_iff_nil.
    pose proof (Z.sqrt_spec (len tiles) ltac:(unfold len; lia)) as Hs.
    fold (isqrt (len tiles)) in Hs. fold sz in Hs. unfold len in Hs. lia. }
  destruct (Z.even sz) eqn:Hev; simpl.
  - rewrite decide_True by (by rewrite Zmod_even, Hev).
    unfold list_index. destruct (index (len tiles) tiles) as [i|] eqn:Hi.
    + rewrite floordiv_ok; last first.
      { intros Hsz. apply Hz in Hsz. by rewrite Hsz in Hi. }
      split; [done|]. split; [done|]. intros [_ Hn].
      apply index_None in Hn. congruence.
    + split; [by intros e [= <-]|]. split; [|done].
      intros _. split; [done | by apply index_None].
  - destruct (Z.even inv); simpl.
    + split; [done|]. split; [done | by intros [? _]].
    + rewrite decide_False by (by rewrite Zmod_even, Hev).
      split; [done|]. split; [done | by intros [? _]].
Qed.

Section TaskFilter.
Implicit Types (h : gmap loc obj) (tl : loc) (items : list Z).

Lemma get_manhattan_distance_run h tl items n :
  h !! tl = Some (ListObj items) →
  2 ≤ n → items ≡ₚ seqZ 1 (n * n) →
  ∃ h',
    get_manhattan_distance tl h =
      (Ok (sumZ (tile_dist n items (seqZ 1 (n * n)) <$> items)), h') ∧
    h ⊆ h'.
Proof.
  intros Htl Hn Hperm.
  assert (len items = n * n) as Hlen.
  { unfold len. rewrite Hperm, length_seqZ. nia. }
  unfold get_manhattan_distance.
  step_with get_list_run. rewrite Hlen.
  erewrite bind_run; [|reflexivity].
  pose proof (fresh_None h) as Hf. set (lg := fresh (dom h)) in *.
  set (h1 := <[lg := ListObj (seqZ 1 (n * n))]> h).
  assert (h ⊆ h1) as Hsub1 by (by apply insert_subseteq).
  destruct (init_valid_run h1 tl items n) as (s1 & bp1 & h2 & _ & Hr1 & Hsub2 & Hv1);
    [by eapply lookup_weaken | done | done |].
  rewrite (bind_run _ _ _ _ _ Hr1).
  destruct (init_valid_run h2 lg (seqZ 1 (n * n)) n)
    as (s2 & bp2 & h3 & _ & Hr2 & Hsub3 & Hv2); [| done | done |].
  { eapply lookup_weaken; [|done]. apply lookup_insert_eq. }
  rewrite (bind_run _ _ _ _ _ Hr2).
  exists h3. split; [|by repeat (etrans; [done|])].
  eapply manhattan_run; [|done]. by eapply valid_state_weaken.
Qed.

Lemma get_manhattan_distance_shape h tl items :
  h !! tl = Some (ListObj items) → ¬ perfect_square (len items) →
  (get_manhattan_distance tl h).1 = Raise (ValueError msg_shape).
Proof.
  intros Htl Hsq. unfold get_manhattan_distance.
  step_with get_list_run. erewrite bind_run; [|reflexivity].
  pose proof (fresh_None h) as Hf. set (lg := fresh (dom h)) in *.
  set (h1 := <[lg := _]> h).
  assert (h1 !! tl = Some (ListObj items)) as Htl1.
  { unfold h1. rewrite lookup_insert_ne by congruence. done. }
  pose proof (init_shape_error h1 tl items Htl1 Hsq) as Herr.
  unfold bind. destruct (GemPuzzleState_init (Some tl) h1) as [[s|e] h2];
    simpl in *; congruence.
Qed.

Lemma get_manhattan_distance_blank h tl items k :
  h !! tl = Some (ListObj items) →
  0 ≤ k → k * k = len items → k * k ∉ items →
  (get_manhattan_distance tl h).1 = Raise (ValueError msg_blank).
Proof.
  intros Htl Hk Hsq Hin. unfold get_manhattan_distance.
  step_with get_list_run. erewrite bind_run; [|reflexivity].
  pose proof (fresh_None h) as Hf. set (lg := fresh (dom h)) in *.
  set (h1 := <[lg := _]> h).
  assert (h1 !! tl = Some (ListObj items)) as Htl1.
  { unfold h1. rewrite lookup_insert_ne by congruence. done. }
  pose proof (init_blank_error h1 tl items k Htl1 Hk Hsq Hin) as Herr.
  unfold bind. destruct (GemPuzzleState_init (Some tl) h1) as [[s|e] h2];
    simpl in *; congruence.
Qed.

Lemma is_solvable_perm_ok n items :
  0 < n → items ≡ₚ seqZ 1 (n * n) → ∃ b, is_solvable items = Ok b.
Proof.
  intros Hn Hperm.
  assert (len items = n * n) as Hlen.
  { unfold len. rewrite Hperm, length_seqZ. nia. }
  destruct (index_is_Some (n * n) items) as [i Hi].
  { rewrite Hperm, elem_of_seqZ. nia. }
  eexists. by apply is_solvable_run.
Qed.

Lemma is_solvable_seqZ n : 2 ≤ n → is_solvable (seqZ 1 (n * n)) = Ok true.
Proof.
  intros Hn.
  assert (len (seqZ 1 (n * n)) = n * n) as Hlen.
  { unfold len. rewrite length_seqZ. nia. }
  rewrite (is_solvable_run n _ (Z.to_nat (n * n - 1))); [|lia|done|].
  - unfold without_blank. rewrite inversions_sorted. simpl.
    destruct (Z.odd n); [done|].
    replace (n - Z.of_nat (Z.to_nat (n * n - 1)) `div` n) with 1; [done|].
    rewrite Z2Nat.id by nia.
    replace (n * n - 1) with ((n - 1) * n + (n - 1)) by lia.
    rewrite Z.div_add_l, Z.div_small by lia. lia.
  - apply index_lookup; [apply NoDup_seqZ|].
    rewrite lookup_seqZ. split; nia.
Qed.

Lemma is_acceptable_task_run h tl items n max_distance :
  h !! tl = Some (ListObj items) →
  2 ≤ n → items ≡ₚ seqZ 1 (n * n) →
  ∃ solvable h',
    is_solvable items = Ok solvable ∧
    h ⊆ h' ∧
    is_acceptable_task tl max_distance h =
      (Ok (solvable &&
           bool_decide (sumZ (tile_dist n items (seqZ 1 (n * n)) <$> items)
                        ≤ max_distance)),
       h').
Proof.
  intros Htl Hn Hperm.
  destruct (is_solvable_perm_ok n items) as [b Hb]; [lia | done|].
  destruct (get_manhattan_distance_run h tl items n Htl Hn Hperm)
    as (h' & Hrun & Hsub).
  unfold is_acceptable_task. step_with get_list_run.
  rewrite Hb, bind_lift_ok. destruct b; simpl.
  - exists true, h'. split_and!; [done..|].
    rewrite (bind_run _ _ _ _ _ Hrun).
    case_decide; [rewrite bool_decide_eq_false_2 by lia
                 | rewrite bool_decide_eq_true_2 by lia]; done.
  - exists false, h. by split_and!.
Qed.
End TaskFilter.

(** X14.  On a permutation of [1..n*n], [n >= 2], [get_manhattan_distance] returns a
    non-negative distance that is 0 exactly for the goal ordering, and
    changes no object already in the store. *)
Theorem get_manhattan_distance_goal h tl items n :
  h !! tl = Some (ListObj items) →
  2 ≤ n → items ≡ₚ seqZ 1 (n * n) →
  ∃ dist h',
    get_manhattan_distance tl h = (Ok dist, h') ∧
    0 ≤ dist ∧
    (dist = 0 ↔ items = seqZ 1 (n * n)) ∧
    ∀ l o, h !! l = Some o → h' !! l = Some o.
Proof.
  intros Htl Hn Hperm.
  destruct (get_manhattan_distance_run h tl items n Htl Hn Hperm)
    as (h' & Hrun & Hsub).
  eexists _, h'. split_and!; [done | | |].
  - apply sumZ_nonneg, tile_dist_nonneg.
  - apply tile_dist_sum_zero_iff; [lia | done | done].
  - intros l o Hl. by eapply lookup_weaken.
Qed.

Lemma get_manhattan_distance_goal_witness :
  ∃ dist h',
    get_manhattan_distance 0%nat {[0%nat := ListObj [2; 1; 4; 3]]}
      = (Ok dist, h') ∧
    0 ≤ dist ∧
    (dist = 0 ↔ [2; 1; 4; 3] = seqZ 1 (2 * 2)) ∧
    ∀ l o, ({[0%nat := ListObj [2; 1; 4; 3]]} : gmap loc obj) !! l = Some o →
           h' !! l = Some o.
Proof.
  apply (get_manhattan_distance_goal {[0%nat := ListObj [2; 1; 4; 3]]} 0%nat
           [2; 1; 4; 3] 2); [reflexivity | lia |].
  change (seqZ 1 (2 * 2)) with [1; 2; 3; 4].
  apply perm_trans with [1; 2; 4; 3]; [apply perm_swap|].
  do 2 apply perm_skip. apply perm_swap.
Defined.

(** X15.  [get_manhattan_distance] raises the constructor's [ValueError] on a list
    whose length is no perfect square, and on one that lacks the blank value. *)
Theorem get_manhattan_distance_invalid h tl items :
  h !! tl = Some (ListObj items) →
  (¬ perfect_square (len items) →
   (get_manhattan_distance tl h).1 = Raise (ValueError msg_shape)) ∧
  (∀ k, 0 ≤ k → k * k = len items → k * k ∉ items →
   (get_manhattan_distance tl h).1 = Raise (ValueError msg_blank)).
Proof.
  intros Htl. split.
  - by apply get_manhattan_distance_shape.
  - intros k. by apply get_manhattan_distance_blank.
Qed.

Lemma get_manhattan_distance_invalid_witness :
  (¬ perfect_square (len [1; 2; 3]) →
   (get_manhattan_distance 0%nat {[0%nat := ListObj [1; 2; 3]]}).1
     = Raise (ValueError msg_shape)) ∧
  (∀ k, 0 ≤ k → k * k = len [1; 2; 3] → k * k ∉ [1; 2; 3] →
   (get_manhattan_distance 0%nat {[0%nat := ListObj [1; 2; 3]]}).1
     = Raise (ValueError msg_blank)).
Proof.
  apply (get_manhattan_distance_invalid {[0%nat := ListObj [1; 2; 3]]} 0%nat
           [1; 2; 3]).
  reflexivity.
Defined.

(** X16.  On a permutation of [1..n*n], [n >= 2], [is_acceptable_task] does not
    raise; it answers [True] exactly when [is_solvable] does and the distance
    to the goal is at most [max_distance]; no object already in the store
    changes. *)
Theorem is_acceptable_task_perm h tl items n max_distance :
  h !! tl = Some (ListObj items) →
  2 ≤ n → items ≡ₚ seqZ 1 (n * n) →
  ∃ answer h' dist h'',
    is_acceptable_task tl max_distance h = (Ok answer, h') ∧
    get_manhattan_distance tl h = (Ok dist, h'') ∧
    (answer = true ↔ is_solvable items = Ok true ∧ dist ≤ max_distance) ∧
    ∀ l o, h !! l = Some o → h' !! l = Some o.
Proof.
  intros Htl Hn Hperm.
  destruct (is_acceptable_task_run h tl items n max_distance Htl Hn Hperm)
    as (b & h' & Hb & Hsub & Hrun).
  destruct (get_manhattan_distance_run h tl items n Htl Hn Hperm)
    as (h'' & Hrun' & _).
  eexists _, h', _, h''. split_and!; [done | done | |].
  - rewrite Hb, andb_true_iff, bool_decide_eq_true.
    split; [by intros [-> ?] | by intros [[= ->] ?]].
  - intros l o Hl. by eapply lookup_weaken.
Qed.

Lemma is_acceptable_task_perm_witness :
  ∃ answer h' dist h'',
    is_acceptable_task 0%nat 12 {[0%nat := ListObj [2; 1; 4; 3]]}
      = (Ok answer, h') ∧
    get_manhattan_distance 0%nat {[0%nat := ListObj [2; 1; 4; 3]]}
      = (Ok dist, h'') ∧
    (answer = true ↔ is_solvable [2; 1; 4; 3] = Ok true ∧ dist ≤ 12) ∧
    ∀ l o, ({[0%nat := ListObj [2; 1; 4; 3]]} : gmap loc obj) !! l = Some o →
           h' !! l = Some o.
Proof.
  apply (is_acceptable_task_perm {[0%nat := ListObj [2; 1; 4; 3]]} 0%nat
           [2; 1; 4; 3] 2 12); [reflexivity | lia |].
  change (seqZ 1 (2 * 2)) with [1; 2; 3; 4].
  apply perm_trans with [1; 2; 4; 3]; [apply perm_swap|].
  do 2 apply perm_skip. apply perm_swap.
Defined.

(** X17.  The goal ordering of a board of width at least 2 is an acceptable task
    for every non-negative [max_distance]. *)
Theorem is_acceptable_task_goal h tl n max_distance :
  h !! tl = Some (ListObj (seqZ 1 (n * n))) →
  2 ≤ n → 0 ≤ max_distance →
  ∃ h', is_acceptable_task tl max_distance h = (Ok true, h').
Proof.
  intros Htl Hn Hmax.
  destruct (is_acceptable_task_run h tl _ n max_distance Htl Hn
              (reflexivity _)) as (b & h' & Hb & _ & Hrun).
  exists h'. rewrite Hrun. do 2 f_equal.
  pose proof (is_solvable_seqZ n Hn) as Hs.
  rewrite Hs in Hb. injection Hb as <-.
  rewrite (proj2 (tile_dist_sum_zero_iff n _ _ ltac:(lia) (reflexivity _)
                    (reflexivity _)) eq_refl).
  by rewrite bool_decide_eq_true_2.
Qed.

Lemma is_acceptable_task_goal_witness :
  ∃ h', is_acceptable_task 0%nat 12 {[0%nat := ListObj (seqZ 1 (3 * 3))]}
        = (Ok true, h').
Proof.
  apply (is_acceptable_task_goal {[0%nat := ListObj (seqZ 1 (3 * 3))]} 0%nat
           3 12); [reflexivity | lia | lia].
Defined.

(** X18.  On a list that passes the parity test but whose length is no perfect
    square, [is_acceptable_task] raises [ValueError] instead of answering
    [False]. *)
Theorem is_acceptable_task_not_square h tl items max_distance :
  h !! tl = Some (ListObj items) →
  is_solvable items = Ok true →
  ¬ perfect_square (len items) →
  (is_acceptable_task tl max_distance h).1 = Raise (ValueError msg_shape).
Proof.
  intros Htl Hs Hsq. unfold is_acceptable_task.
  step_with get_list_run. rewrite Hs, bind_lift_ok. simpl.
  pose proof (get_manhattan_distance_shape h tl items Htl Hsq) as Herr.
  unfold bind. destruct (get_manhattan_distance tl h) as [[d|e] h'];
    simpl in *; congruence.
Qed.

Lemma is_acceptable_task_not_square_witness :
  (is_acceptable_task 0%nat 12 {[0%nat := ListObj [1; 2; 3]]}).1
    = Raise (ValueError msg_shape).
Proof.
  apply (is_acceptable_task_not_square {[0%nat := ListObj [1; 2; 3]]} 0%nat
           [1; 2; 3] 12); [reflexivity | reflexivity |].
  intros (k & Hk & Hkk). unfold len in Hkk. simpl in Hkk.
  assert (k < 2) by nia. assert (k = 0 ∨ k = 1) as [-> | ->] by lia; lia.
Defined.

(** X19.  [generate_random_tile_list(size)] returns a new list that is a
    permutation of [1..size*size]; for [size <> 0] the constructor accepts it
    with board width [abs(size)], so a negative [size] is taken as its
    absolute value. *)
Theorem generate_random_tile_list_accepted shuffle size h :
  (∀ l, shuffle l ≡ₚ l) →
  ∃ tl items,
    h !! tl = None ∧
    generate_random_tile_list shuffle size h
      = (Ok tl, <[tl := ListObj items]> h) ∧
    items ≡ₚ seqZ 1 (size * size) ∧
    (size ≠ 0 →
     ∃ state bp h',
       GemPuzzleState_init (Some tl) (<[tl := ListObj items]> h)
         = (Ok state, h') ∧
       h' !! state =
         Some (StateObj (mkState (Some (Z.abs size)) (Some tl) (Some bp))) ∧
       items !! Z.to_nat bp = Some (size * size)).
Proof.
  intros Hshuffle.
  set (tl := fresh (dom h)).
  set (items := shuffle ((λ i, i + 1) <$> seqZ 0 (size ^ 2))).
  assert (items ≡ₚ seqZ 1 (size * size)) as Hperm.
  { unfold items. rewrite Hshuffle.
    rewrite (list_fmap_ext _ (Z.add 1) (seqZ 0 (size ^ 2)))
      by (intros; lia).
    rewrite fmap_add_seqZ. by replace (size ^ 2) with (size * size) by lia. }
  exists tl, items. split_and!; [apply fresh_None | | done |].
  - unfold generate_random_tile_list.
    erewrite bind_run; [|reflexivity]. fold tl.
    unfold list_shuffle.
    rewrite bind_assoc. step_with get_list_run.
    unfold bind. by rewrite insert_insert_eq.
  - intros Hsize.
    assert (len items = Z.abs size * Z.abs size) as Hlen.
    { unfold len. rewrite Hperm, length_seqZ. nia. }
    destruct (index_is_Some (Z.abs size * Z.abs size) items) as [i Hi].
    { rewrite Hperm, elem_of_seqZ. nia. }
    eexists _, (Z.of_nat i), _. split_and!.
    + apply (init_ok _ tl items (Z.abs size) i);
        [apply lookup_insert_eq | lia | lia | done].
    + apply lookup_insert_eq.
    + rewrite Nat2Z.id. apply index_Some in Hi as [-> _]. f_equal. nia.
Qed.

Lemma generate_random_tile_list_accepted_witness :
  ∃ tl items,
    (∅ : gmap loc obj) !! tl = None ∧
    generate_random_tile_list reverse (-2) ∅
      = (Ok tl, <[tl := ListObj items]> ∅) ∧
    items ≡ₚ seqZ 1 (-2 * -2) ∧
    (-2 ≠ 0 →
     ∃ state bp h',
       GemPuzzleState_init (Some tl) (<[tl := ListObj items]> ∅)
         = (Ok state, h') ∧
       h' !! state =
         Some (StateObj (mkState (Some (Z.abs (-2))) (Some tl) (Some bp))) ∧
       items !! Z.to_nat bp = Some (-2 * -2)).
Proof.
  apply (generate_random_tile_list_accepted reverse (-2) ∅).
  intros l. apply reverse_Permutation.
Defined.

Section HarnessMore.
Context {V : Type}.
Variable float_zero : V.
Variable search_function : loc → loc → M (search_return V).
Variable is_blank_line : string → bool.
Variable parse_ints : string → result (list Z).

Local Abbreviation task_ :=
  (task V float_zero search_function is_blank_line parse_ints).
Local Abbreviation run_tasks_ :=
  (run_tasks float_zero search_function is_blank_line parse_ints).
Local Abbreviation massive_test_ :=
  (massive_test V float_zero search_function is_blank_line parse_ints).

Lemma bind_on_store_post {A B} (m : M A) (k : A → ST (harness V) B)
    (s : harness V) (P : result B * harness V → Prop) :
  (∀ a h', P (k a (with_store h' s))) →
  (∀ e h', P (Raise e, with_store h' s)) →
  P (bind (on_store m) k s).
Proof.
  intros Hok Herr. unfold bind, on_store.
  destruct (m (store s)) as [[a|e] h']; [apply Hok | apply Herr].
Qed.

Lemma try_except_post {S A} (body : ST S A) (handler : exn → ST S A) s
    (P : result A * S → Prop) :
  (∀ a s', body s = (Ok a, s') → P (Ok a, s')) →
  (∀ e s', body s = (Raise e, s') → is_Exception e = true →
           P (handler e s')) →
  (∀ e s', body s = (Raise e, s') → is_Exception e = false →
           P (Raise e, s')) →
  P (try_except body handler s).
Proof.
  intros Hok Hcaught Hpass. unfold try_except.
  destruct (body s) as [[a|e] s'] eqn:Hb; [by apply Hok|].
  destruct (is_Exception e) eqn:He; [by apply Hcaught | by apply Hpass].
Qed.

Lemma print_error_stats task_num e (s : harness V) :
  let s' := (print_error task_num e s).2 in
  stat_len s' = stat_len s ∧ stat_st_size s' = stat_st_size s ∧
  stat_steps s' = stat_steps s.
Proof. unfold print_error, bind, lift. by destruct (format_exn e). Qed.

Lemma task_effect_cases p s :
  task_effect s (task_ tt p s).2 ∧
  (is_blank_line p.2 = true → (task_ tt p s).2 = s).
Proof.
  destruct p as [task_num line]. unfold task.
  destruct (is_blank_line line) eqn:Hblank; [split; [by left | done]|].
  split; [|simpl; congruence].
  destruct (parse_ints line) as [tiles|e]; [|by left].
  rewrite bind_lift_ok.
  repeat (apply bind_on_store_post; [intros ? ?|by left]).
  apply try_except_post.
  - intros [] s' Hbody. unfold bind, on_store in Hbody.
    destruct (search_function _ _ _) as [[r|e] h5]; [|done].
    destruct (found r); [destruct (last_state_g r)|]; simpl in Hbody;
      try done; injection Hbody as <-; right; by eexists _, _, _.
  - intros e s' Hbody _.
    destruct (print_error_stats task_num e s') as (E1 & E2 & E3).
    left. rewrite E1, E2, E3. clear E1 E2 E3.
    unfold bind, on_store in Hbody.
    destruct (search_function _ _ _) as [[r|e'] h5].
    + destruct (found r); [destruct (last_state_g r)|]; simpl in Hbody;
        try done; by injection Hbody as <- <-.
    + by injection Hbody as <- <-.
  - intros e s' Hbody _. unfold bind, on_store in Hbody.
    destruct (search_function _ _ _) as [[r|e'] h5].
    + destruct (found r); [destruct (last_state_g r)|]; simpl in Hbody;
        try done; injection Hbody as <- <-; by left.
    + injection Hbody as <- <-. by left.
Qed.

Lemma run_tasks_effect lines : ∀ first s,
  let s' := (run_tasks_ first lines s).2 in
  (aligned s → aligned s') ∧
  (length (stat_len s) ≤ length (stat_len s')
   ≤ length (stat_len s) +
     length (filter (λ l, is_blank_line l = false) lines))%nat.
Proof.
  induction lines as [|line lines IH]; intros first s.
  { cbn. split; [done|lia]. }
  unfold run_tasks. rewrite imap_cons. cbn [for_each].
  destruct (task_effect_cases (first + 0, line)%nat s) as [Heff Hblank].
  cbn [snd] in Hblank.
  unfold bind.
  destruct (task_ tt ((first + 0)%nat, line) s) as [[[]|e] s1] eqn:Htask;
    cbn [snd] in *.
  - rewrite (imap_ext _ (λ i l, ((S first + i)%nat, l)))
      by (intros; cbn; f_equal; lia).
    destruct (IH (S first) s1) as [Hal Hlen]. unfold run_tasks in Hal, Hlen.
    rewrite filter_cons. destruct (is_blank_line line) eqn:Hb.
    + rewrite Hblank in * by done. rewrite decide_False by done. done.
    + rewrite decide_True by done. cbn [length].
      destruct Heff as [(E1 & E2 & E3) | (a & b & c & E1 & E2 & E3)].
      * split; [intros Hs; apply Hal; unfold aligned; by rewrite E1, E2, E3|].
        rewrite E1 in Hlen. lia.
      * split.
        -- intros [Hs1 Hs2]. apply Hal. unfold aligned.
           rewrite E1, E2, E3, !length_app. cbn [length]. lia.
        -- rewrite E1, length_app in Hlen. cbn [length] in Hlen. lia.
  - rewrite filter_cons.
    destruct Heff as [(E1 & E2 & E3) | (a & b & c & E1 & E2 & E3)].
    + split; [unfold aligned; by rewrite E1, E2, E3|].
      rewrite E1. case_decide; cbn [length]; lia.
    + destruct (is_blank_line line) eqn:Hb.
      * rewrite Hblank in E1 by done.
        apply (f_equal length) in E1. rewrite length_app in E1.
        cbn [length] in E1. lia.
      * rewrite decide_True by done. split.
        -- intros [Hs1 Hs2]. unfold aligned.
           rewrite E1, E2, E3, !length_app. cbn [length]. lia.
        -- rewrite E1, length_app. cbn [length]. lia.
Qed.

(** X20.  Whatever the search function and the lines, and whether [massive_test]
    returns or raises, the three statistics lists end with one common length,
    which is at most the number of non-blank lines; a returned triple is
    exactly those three lists, in the order ["len"], ["st_size"], ["steps"]. *)
Theorem massive_test_aligned lines (s : harness V) :
  let r := massive_test_ lines s in
  aligned r.2 ∧
  (length (stat_len r.2)
   ≤ length (filter (λ l, is_blank_line l = false) lines))%nat ∧
  ∀ t, r.1 = Ok t → t = (stat_len r.2, stat_st_size r.2, stat_steps r.2).
Proof.
  intros r. subst r.
  set (s0 := mkHarness (V:=V) (store s) [] [] [] (printed s)).
  change (massive_test_ lines s)
    with (bind (run_tasks_ 0 lines) (λ _, collect) s0).
  destruct (run_tasks_effect lines 0 s0) as [Hal Hlen].
  specialize (Hal ltac:(by split)).
  unfold bind. destruct (run_tasks_ 0 lines s0) as [[[]|e] s1];
    cbn [fst snd] in *; unfold s0 in Hlen; cbn [stat_len length] in Hlen.
  - unfold collect. cbn [fst snd].
    split_and!; [done | lia |]. by intros t [= <-].
  - split_and!; [done | lia | done].
Qed.

End HarnessMore.

Section HarnessErrors.
Context {V : Type}.
Variable float_zero : V.
Variable search_function : loc → loc → M (search_return V).
Variable is_blank_line : string → bool.
Variable parse_ints : string → result (list Z).

Local Abbreviation task_ :=
  (task V float_zero search_function is_blank_line parse_ints).
Local Abbreviation run_tasks_ :=
  (run_tasks float_zero search_function is_blank_line parse_ints).
Local Abbreviation massive_test_ :=
  (massive_test V float_zero search_function is_blank_line parse_ints).

Lemma bind_ext_run {S' A B} (m m' : ST S' A) (k : A → ST S' B) s1 s2 :
  m s1 = m' s2 → bind m k s1 = bind m' k s2.
Proof. unfold bind. by intros ->. Qed.

Lemma massive_test_abort lines1 line lines2 (s0 s s' : harness V) e :
  bind new_stat (λ _, run_tasks_ 0 lines1) s0 = (Ok tt, s) →
  task_ tt (length lines1, line) s = (Raise e, s') →
  massive_test_ (lines1 ++ line :: lines2) s0 = (Raise e, s').
Proof.
  intros Hpre Htask.
  rewrite massive_test_run_tasks.
  apply bind_ok_inv in Hpre as ([] & s1 & Hnew & Hpre).
  rewrite (bind_run _ _ _ _ _ Hnew).
  erewrite bind_fail; [reflexivity|].
  rewrite run_tasks_app, (bind_run _ _ _ _ _ Hpre).
  unfold run_tasks. rewrite imap_cons. cbn [for_each].
  rewrite !Nat.add_0_r. by erewrite bind_fail.
Qed.

Lemma task_parse_error task_num line (s : harness V) e :
  is_blank_line line = false → parse_ints line = Raise e →
  task_ tt (task_num, line) s = (Raise e, s).
Proof. intros Hb Hp. unfold task. by rewrite Hb, Hp. Qed.

Lemma task_shape_error task_num line (s : harness V) tiles :
  is_blank_line line = false → parse_ints line = Ok tiles →
  ¬ perfect_square (len tiles) →
  ∃ s', task_ tt (task_num, line) s = (Raise (ValueError msg_shape), s').
Proof.
  intros Hb Hp Hsq. unfold task. rewrite Hb, Hp, bind_lift_ok.
  erewrite bind_run; [|by apply on_store_run]. cbn [store].
  pose proof (fresh_None (store s)) as Hf1.
  set (l1 := fresh (dom (store s))) in *.
  set (h1 := <[l1 := ListObj tiles]> (store s)).
  assert (h1 !! l1 = Some (ListObj tiles)) as Hl1 by apply lookup_insert_eq.
  erewrite bind_run; [|apply on_store_run, (get_list_run _ _ _ Hl1)].
  erewrite bind_run; [|by apply on_store_run]. cbn [store].
  set (l2 := fresh (dom h1)).
  pose proof (fresh_None h1) as Hf2. fold l2 in Hf2.
  set (h2 := <[l2 := _]> h1).
  assert (h2 !! l1 = Some (ListObj tiles)) as Hl1'.
  { unfold h2. rewrite lookup_insert_ne by congruence. done. }
  pose proof (init_shape_error h2 l1 tiles Hl1' Hsq) as Herr.
  destruct (GemPuzzleState_init (Some l1) h2) as [r h3] eqn:Hinit.
  simpl in Herr. subst r.
  eexists. erewrite bind_fail; [reflexivity|]. by apply on_store_run.
Qed.

(** X21.  Errors raised outside the [try] end the batch: a line that fails to
    parse, or that parses to a list whose length is no perfect square, makes
    [massive_test] raise, whatever lines follow. *)
Theorem massive_test_invalid_line lines1 line lines2 (s0 s : harness V) :
  bind new_stat (λ _, run_tasks_ 0 lines1) s0 = (Ok tt, s) →
  is_blank_line line = false →
  (∀ e, parse_ints line = Raise e →
        massive_test_ (lines1 ++ line :: lines2) s0 = (Raise e, s)) ∧
  (∀ tiles, parse_ints line = Ok tiles → ¬ perfect_square (len tiles) →
        (massive_test_ (lines1 ++ line :: lines2) s0).1
          = Raise (ValueError msg_shape)).
Proof.
  intros Hpre Hb. split.
  - intros e Hp. eapply massive_test_abort; [done|].
    by apply task_parse_error.
  - intros tiles Hp Hsq.
    destruct (task_shape_error (length lines1) line s tiles Hb Hp Hsq)
      as [s' Htask].
    by rewrite (massive_test_abort _ _ lines2 _ _ _ _ Hpre Htask).
Qed.

(** X22.  An exception of the search function that does not derive from
    [Exception] ends the batch: [massive_test] raises it, with the statistics
    of the tasks before and nothing printed for this one. *)
Theorem massive_test_interrupted lines1 line lines2 (s0 s : harness V) tiles
    start goal h e h' :
  bind new_stat (λ _, run_tasks_ 0 lines1) s0 = (Ok tt, s) →
  is_blank_line line = false →
  parse_ints line = Ok tiles →
  prepare tiles (store s) = (Ok (start, goal), h) →
  search_function start goal h = (Raise e, h') →
  is_Exception e = false →
  massive_test_ (lines1 ++ line :: lines2) s0 =
    (Raise e, mkHarness h' (stat_len s) (stat_st_size s) (stat_steps s)
                        (printed s)).
Proof.
  intros Hpre Hblank Hparse Hprep Hsearch Hexc.
  eapply massive_test_abort; [done|].
  unfold prepare in Hprep.
  apply bind_ok_inv in Hprep as (l1 & h1 & E1 & Hprep).
  apply bind_ok_inv in Hprep as (items & h2 & E2 & Hprep).
  apply bind_ok_inv in Hprep as (l2 & h3 & E3 & Hprep).
  apply bind_ok_inv in Hprep as (s1 & h4 & E4 & Hprep).
  apply bind_ok_inv in Hprep as (s2 & h5 & E5 & Hprep).
  injection Hprep as -> -> ->.
  unfold task. rewrite Hblank, Hparse, bind_lift_ok.
  do 5 (erewrite bind_run; [|by apply on_store_run]).
  unfold try_except. erewrite bind_fail; [|by apply on_store_run].
  by rewrite Hexc.
Qed.

(** X23.  A search result with [found] true whose [last_state] has no attribute
    [g] is handled as a failed task: [AttributeError] is printed and no list
    grows. *)
Theorem task_found_without_node task_num line (s : harness V) tiles
    start goal h r h' :
  is_blank_line line = false →
  parse_ints line = Ok tiles →
  prepare tiles (store s) = (Ok (start, goal), h) →
  search_function start goal h = (Ok r, h') →
  found r = true → last_state_g r = None →
  task_ tt (task_num, line) s =
    (Ok tt, mkHarness h' (stat_len s) (stat_st_size s) (stat_steps s)
                      (printed s ++ [(task_num, AttributeError)])).
Proof.
  intros Hblank Hparse Hprep Hsearch Hfound Hg.
  unfold prepare in Hprep.
  apply bind_ok_inv in Hprep as (l1 & h1 & E1 & Hprep).
  apply bind_ok_inv in Hprep as (items & h2 & E2 & Hprep).
  apply bind_ok_inv in Hprep as (l2 & h3 & E3 & Hprep).
  apply bind_ok_inv in Hprep as (s1 & h4 & E4 & Hprep).
  apply bind_ok_inv in Hprep as (s2 & h5 & E5 & Hprep).
  injection Hprep as -> -> ->.
  unfold task. rewrite Hblank, Hparse, bind_lift_ok.
  do 5 (erewrite bind_run; [|by apply on_store_run]).
  unfold try_except. erewrite bind_run; [|by apply on_store_run].
  by rewrite Hfound, Hg.
Qed.

Lemma massive_test_continue lines1 line lines2 (s0 s s' : harness V) :
  bind new_stat (λ _, run_tasks_ 0 lines1) s0 = (Ok tt, s) →
  task_ tt (length lines1, line) s = (Ok tt, s') →
  massive_test_ (lines1 ++ line :: lines2) s0 =
    bind (run_tasks_ (S (length lines1)) lines2) (λ _, collect) s'.
Proof.
  intros Hpre Htask.
  rewrite massive_test_run_tasks.
  apply bind_ok_inv in Hpre as ([] & s1 & Hnew & Hpre).
  rewrite (bind_run _ _ _ _ _ Hnew).
  apply bind_ext_run.
  rewrite run_tasks_app, (bind_run _ _ _ _ _ Hpre).
  unfold run_tasks at 1. rewrite imap_cons. cbn [for_each].
  rewrite !Nat.add_0_r, (bind_run _ _ _ _ _ Htask).
  unfold run_tasks. f_equal.
  apply imap_ext. intros i x _. simpl. f_equal. lia.
Qed.

(** X24.  A task whose search returns appends exactly one element to each
    list: [last_state.g] if [found] and else [0.0], then the tree size, then
    the number of steps; nothing is printed, and [massive_test] goes on with
    the lines that follow. *)
Theorem task_records_result lines1 line lines2 (s0 s : harness V) tiles
    start goal h r h' :
  bind new_stat (λ _, run_tasks_ 0 lines1) s0 = (Ok tt, s) →
  is_blank_line line = false →
  parse_ints line = Ok tiles →
  prepare tiles (store s) = (Ok (start, goal), h) →
  search_function start goal h = (Ok r, h') →
  (found r = true → is_Some (last_state_g r)) →
  let s' :=
    mkHarness h'
      (stat_len s ++
         [if found r then default float_zero (last_state_g r)
          else float_zero])
      (stat_st_size s ++ [search_tree_size r])
      (stat_steps s ++ [number_of_steps r])
      (printed s) in
  task_ tt (length lines1, line) s = (Ok tt, s') ∧
  massive_test_ (lines1 ++ line :: lines2) s0 =
    bind (run_tasks_ (S (length lines1)) lines2) (λ _, collect) s'.
Proof.
  intros Hpre Hblank Hparse Hprep Hsearch Hg s'.
  pose proof (task_search_returns float_zero search_function is_blank_line
                parse_ints (length lines1) line s tiles start goal h r h'
                Hblank Hparse Hprep Hsearch Hg) as Htask.
  split; [done|]. by apply (massive_test_continue _ _ _ _ s).
Qed.

(** X28.  An exception of the search function that [except Exception]
    catches but whose [__str__] raises makes the handler raise in turn, while
    its message is being formatted: nothing is printed for the task, and
    [massive_test] ends with the exception of [__str__] and the statistics
    of the tasks before, without running the lines that follow. *)
Theorem massive_test_unprintable_error lines1 line lines2 (s0 s : harness V)
    tiles start goal h e e' h' :
  bind new_stat (λ _, run_tasks_ 0 lines1) s0 = (Ok tt, s) →
  is_blank_line line = false →
  parse_ints line = Ok tiles →
  prepare tiles (store s) = (Ok (start, goal), h) →
  search_function start goal h = (Raise e, h') →
  is_Exception e = true →
  format_exn e = Raise e' →
  massive_test_ (lines1 ++ line :: lines2) s0 =
    (Raise e', mkHarness h' (stat_len s) (stat_st_size s) (stat_steps s)
                         (printed s)).
Proof.
  intros Hpre Hblank Hparse Hprep Hsearch Hexc Hfmt.
  eapply massive_test_abort; [done|].
  unfold prepare in Hprep.
  apply bind_ok_inv in Hprep as (l1 & h1 & E1 & Hprep).
  apply bind_ok_inv in Hprep as (items & h2 & E2 & Hprep).
  apply bind_ok_inv in Hprep as (l2 & h3 & E3 & Hprep).
  apply bind_ok_inv in Hprep as (s1 & h4 & E4 & Hprep).
  apply bind_ok_inv in Hprep as (s2 & h5 & E5 & Hprep).
  injection Hprep as -> -> ->.
  unfold task. rewrite Hblank, Hparse, bind_lift_ok.
  do 5 (erewrite bind_run; [|by apply on_store_run]).
  unfold try_except. erewrite bind_fail; [|by apply on_store_run].
  rewrite Hexc. unfold print_error. erewrite bind_fail; [done|].
  unfold lift. by rewrite Hfmt.
Qed.

End HarnessErrors.

Lemma massive_test_invalid_line_witness :
  let lines1 := ["1 2 3 4"%string] in
  let line := "1 2 3"%string in
  let lines2 := ["1 2 3 4"%string] in
  let s := (bind new_stat
              (λ _, run_tasks 0 demo_search demo_blank demo_parse_bad 0 lines1)
              demo_harness).2 in
  (∀ e, demo_parse_bad line = Raise e →
        massive_test Z 0 demo_search demo_blank demo_parse_bad
                     (lines1 ++ line :: lines2) demo_harness = (Raise e, s)) ∧
  (∀ tiles, demo_parse_bad line = Ok tiles → ¬ perfect_square (len tiles) →
        (massive_test Z 0 demo_search demo_blank demo_parse_bad
                      (lines1 ++ line :: lines2) demo_harness).1
          = Raise (ValueError msg_shape)).
Proof.
  intros lines1 line lines2 s.
  apply (massive_test_invalid_line 0 demo_search demo_blank demo_parse_bad
           lines1 line lines2 demo_harness s); vm_compute; reflexivity.
Defined.

Lemma massive_test_interrupted_witness :
  let lines1 := ["1 2 3 4"%string; EmptyString] in
  let line := "2 1 3 4"%string in
  let lines2 := ["1 2 3 4"%string] in
  let s := (bind new_stat
              (λ _, run_tasks 0 demo_interrupted demo_blank demo_parse 0 lines1)
              demo_harness).2 in
  let h := (prepare [2; 1; 3; 4] (store s)).2 in
  massive_test Z 0 demo_interrupted demo_blank demo_parse
               (lines1 ++ line :: lines2) demo_harness =
    (Raise (BaseExceptionOnly "KeyboardInterrupt"),
     mkHarness h (stat_len s) (stat_st_size s) (stat_steps s) (printed s)).
Proof.
  intros lines1 line lines2 s h.
  apply (massive_test_interrupted 0 demo_interrupted demo_blank demo_parse
           lines1 line lines2 demo_harness s [2; 1; 3; 4] 6%nat 7%nat h
           (BaseExceptionOnly "KeyboardInterrupt") h);
    vm_compute; reflexivity.
Defined.

Lemma task_found_without_node_witness :
  let h := (prepare [1; 2; 3; 4] ∅).2 in
  task Z 0 demo_no_node demo_blank demo_parse tt (0%nat, "1 2 3 4"%string)
       demo_harness =
    (Ok tt, mkHarness h [] [] [] [(0%nat, AttributeError)]).
Proof.
  intros h.
  apply (task_found_without_node 0 demo_no_node demo_blank demo_parse 0%nat
           "1 2 3 4"%string demo_harness [1; 2; 3; 4] 2%nat 3%nat h
           (mkReturn true None 7 9) h);
    vm_compute; reflexivity.
Defined.

Lemma task_records_result_witness :
  let lines1 := ["1 2 3 4"%string; EmptyString] in
  let line := "1 2 3 4"%string in
  let lines2 := ["2 1 3 4"%string] in
  let s := (bind new_stat
              (λ _, run_tasks 0 demo_search demo_blank demo_parse 0 lines1)
              demo_harness).2 in
  let h := (prepare [1; 2; 3; 4] (store s)).2 in
  let s' := mkHarness h (stat_len s ++ [5]) (stat_st_size s ++ [9])
                      (stat_steps s ++ [7]) (printed s) in
  task Z 0 demo_search demo_blank demo_parse tt (2%nat, line) s = (Ok tt, s') ∧
  massive_test Z 0 demo_search demo_blank demo_parse
               (lines1 ++ line :: lines2) demo_harness =
    bind (run_tasks 0 demo_search demo_blank demo_parse 3 lines2)
         (λ _, collect) s'.
Proof.
  intros lines1 line lines2 s h s'.
  apply (task_records_result 0 demo_search demo_blank demo_parse
           lines1 line lines2 demo_harness s [1; 2; 3; 4] 6%nat 7%nat h
           (mkReturn true (Some 5) 7 9) h);
    try (vm_compute; reflexivity).
  intros _. by eexists.
Defined.

Section Parity.
Implicit Types (l a b : list Z).

Lemma inversions_rec_app a b :
  inversions_rec (a ++ b) =
    (inversions_rec a + cross a b + inversions_rec b)%nat.
Proof.
  induction a as [|x a IH]; [done|].
  cbn [app inversions_rec cross]. rewrite IH, filter_app, length_app. lia.
Qed.

Lemma cross_app_r a b1 b2 : cross a (b1 ++ b2) = (cross a b1 + cross a b2)%nat.
Proof.
  induction a as [|x a IH]; [done|].
  cbn [cross]. rewrite IH, filter_app, length_app. lia.
Qed.

Lemma cross_app_l a1 a2 b : cross (a1 ++ a2) b = (cross a1 b + cross a2 b)%nat.
Proof.
  induction a1 as [|x a1 IH]; [done|]. cbn [app cross]. rewrite IH. lia.
Qed.

Lemma cross_single_r a v :
  cross a [v] = length (filter (λ x : Z, (v < x)%Z) a).
Proof.
  induction a as [|x a IH]; [done|].
  cbn [cross]. rewrite IH, filter_cons, (filter_cons _ x a), filter_nil.
  repeat case_decide; cbn [length]; lia.
Qed.

Lemma count_lt_gt a v :
  v ∉ a →
  (length (filter (λ y : Z, (y < v)%Z) a) +
   length (filter (λ x : Z, (v < x)%Z) a) = length a)%nat.
Proof.
  induction a as [|x a IH]; intros Hv; [done|].
  apply not_elem_of_cons in Hv as [Hne Hv]. specialize (IH Hv).
  rewrite !filter_cons. repeat case_decide; cbn [length]; lia.
Qed.

(** Moving [v] across [m] changes the number of inversions by a number of
    the parity of [length m]. *)
Lemma inversions_rec_move p m v s :
  v ∉ m →
  Z.even (Z.of_nat (inversions_rec (p ++ m ++ v :: s))) =
    xorb (Z.even (Z.of_nat (inversions_rec (p ++ v :: m ++ s))))
         (Z.odd (Z.of_nat (length m))).
Proof.
  intros Hv.
  assert (inversions_rec (p ++ m ++ v :: s) +
            length (filter (λ y : Z, (y < v)%Z) m) =
          inversions_rec (p ++ v :: m ++ s) +
            length (filter (λ x : Z, (v < x)%Z) m))%nat as Heq.
  { rewrite (inversions_rec_app p (m ++ v :: s)).
    rewrite (inversions_rec_app p (v :: m ++ s)).
    assert (cross p (m ++ v :: s) = cross p (v :: m ++ s)) as ->.
    { change (v :: s) with ([v] ++ s). change (v :: m ++ s) with ([v] ++ m ++ s).
      rewrite !cross_app_r. lia. }
    rewrite (inversions_rec_app m (v :: s)).
    change (v :: s) with ([v] ++ s) at 1.
    rewrite cross_app_r, cross_single_r.
    cbn [inversions_rec]. rewrite (inversions_rec_app m s).
    rewrite filter_app, length_app. lia. }
  pose proof (count_lt_gt m v Hv) as Hsum.
  apply (f_equal Z.of_nat) in Heq, Hsum.
  rewrite !Nat2Z.inj_add in Heq. rewrite !Nat2Z.inj_add in Hsum.
  apply (f_equal Z.even) in Heq. rewrite !Z.even_add in Heq.
  rewrite <- Z.negb_even.
  rewrite <- Hsum, Z.even_add.
  repeat match goal with
  | |- context [Z.even ?x] => destruct (Z.even x)
  | H : context [Z.even ?x] |- _ => destruct (Z.even x)
  end; simpl in *; congruence.
Qed.

Lemma swap_decompose l i j x y :
  (i < j)%nat → l !! i = Some x → l !! j = Some y →
  ∃ p m s,
    l = p ++ x :: m ++ y :: s ∧
    length p = i ∧ length m = (j - i - 1)%nat ∧
    ∀ u w : Z, <[j := u]> (<[i := w]> l) = p ++ w :: m ++ u :: s.
Proof.
  intros Hij Hi Hj.
  pose proof (take_drop_middle l i x Hi) as Hl.
  set (p := take i l) in *. set (t := drop (S i) l) in *.
  assert (length p = i) as Hp.
  { unfold p. rewrite length_take. apply lookup_lt_Some in Hi. lia. }
  assert (t !! (j - i - 1)%nat = Some y) as Ht.
  { rewrite <- Hl in Hj. rewrite lookup_app_r in Hj by lia.
    rewrite Hp in Hj. replace (j - i)%nat with (S (j - i - 1)) in Hj by lia.
    done. }
  pose proof (take_drop_middle t _ y Ht) as Ht'.
  set (m := take (j - i - 1) t) in *. set (s := drop (S (j - i - 1)) t) in *.
  assert (length m = (j - i - 1)%nat) as Hm.
  { unfold m. rewrite length_take. apply lookup_lt_Some in Ht. lia. }
  exists p, m, s. split_and!; [by rewrite Ht', Hl | done | done |].
  intros u w. rewrite <- Hl, <- Ht'.
  rewrite (insert_app_r_alt p _ i) by lia.
  rewrite Hp, Nat.sub_diag. cbn [insert list_insert].
  rewrite (insert_app_r_alt p _ j) by lia.
  rewrite Hp. replace (j - i)%nat with (S (j - i - 1)) by lia.
  cbn [insert list_insert]. f_equal. f_equal.
  rewrite (insert_app_r_alt m _ (j - i - 1)) by lia.
  by rewrite Hm, Nat.sub_diag.
Qed.
End Parity.

Section MoveInvariance.
Implicit Types (items : list Z).

Lemma filter_all {A} (P : A → Prop) `{!∀ x, Decision (P x)} (l : list A) :
  (∀ x, x ∈ l → P x) → filter P l = l.
Proof.
  induction l as [|x l IH]; intros Hl; [done|].
  rewrite filter_cons_True by (apply Hl; left).
  f_equal. apply IH. intros y Hy. apply Hl. by right.
Qed.

Lemma slide_inversions_parity n items bp t :
  NoDup items → 0 ≤ bp → 0 ≤ t → t ≠ bp →
  items !! Z.to_nat bp = Some (n * n) → is_Some (items !! Z.to_nat t) →
  Z.even (Z.of_nat (inversions_spec (without_blank n (slide n items bp t)))) =
    xorb (Z.even (Z.of_nat (inversions_spec (without_blank n items))))
         (Z.odd (Z.abs (t - bp) - 1)).
Proof.
  intros Hnd Hbp Ht Hne Hb [v Hv].
  rewrite !inversions_spec_rec. unfold slide, without_blank. rewrite Hv.
  change (default 0 (Some v)) with v. replace (n ^ 2) with (n * n) by lia.
  set (b := n * n) in *. set (i := Z.to_nat bp) in *. set (j := Z.to_nat t) in *.
  assert (i ≠ j) as Hij by lia.
  assert (v ≠ b) as Hvb.
  { intros ->. by apply Hij, (NoDup_lookup items i j b). }
  destruct (decide (i < j)%nat) as [Hlt|Hge].
  - destruct (swap_decompose items i j b v Hlt Hb Hv)
      as (p & m & s & Hitems & Hp & Hm & Hswap).
    rewrite Hswap, Hitems.
    rewrite Hitems in Hnd.
    apply NoDup_app in Hnd as (_ & _ & Hnd).
    apply NoDup_cons in Hnd as (Hbm & Hnd).
    apply NoDup_app in Hnd as (_ & Hmv & _).
    assert (filter (λ x, x ≠ b) m = m) as Hfm.
    { apply filter_all. intros x Hx ->. apply Hbm, elem_of_app. by left. }
    assert (filter (λ x, x ≠ b) (p ++ v :: m ++ b :: s) =
            filter (λ x, x ≠ b) p ++ v :: m ++ filter (λ x, x ≠ b) s) as ->.
    { rewrite filter_app, filter_cons_True, filter_app, Hfm by done.
      by rewrite filter_cons_False by (intros Hc; by apply Hc). }
    assert (filter (λ x, x ≠ b) (p ++ b :: m ++ v :: s) =
            filter (λ x, x ≠ b) p ++ m ++ v :: filter (λ x, x ≠ b) s) as ->.
    { rewrite filter_app, filter_cons_False by (intros Hc; by apply Hc).
      by rewrite filter_app, Hfm, filter_cons_True by done. }
    rewrite (inversions_rec_move _ m v) by (intros Hx; eapply Hmv; [done|left]).
    rewrite xorb_assoc.
    replace (Z.of_nat (length m)) with (Z.abs (t - bp) - 1) by lia.
    by rewrite xorb_nilpotent, xorb_false_r.
  - assert (j < i)%nat as Hlt by lia.
    destruct (swap_decompose items j i v b Hlt Hv Hb)
      as (p & m & s & Hitems & Hp & Hm & Hswap).
    rewrite list_insert_insert_ne by done. rewrite Hswap, Hitems.
    rewrite Hitems in Hnd.
    apply NoDup_app in Hnd as (_ & _ & Hnd).
    apply NoDup_cons in Hnd as (Hvm & Hnd).
    apply NoDup_app in Hnd as (_ & Hmb & _).
    assert (filter (λ x, x ≠ b) m = m) as Hfm.
    { apply filter_all. intros x Hx ->. eapply Hmb; [done|left]. }
    assert (filter (λ x, x ≠ b) (p ++ v :: m ++ b :: s) =
            filter (λ x, x ≠ b) p ++ v :: m ++ filter (λ x, x ≠ b) s) as ->.
    { rewrite filter_app, filter_cons_True, filter_app, Hfm by done.
      by rewrite filter_cons_False by (intros Hc; by apply Hc). }
    assert (filter (λ x, x ≠ b) (p ++ b :: m ++ v :: s) =
            filter (λ x, x ≠ b) p ++ m ++ v :: filter (λ x, x ≠ b) s) as ->.
    { rewrite filter_app, filter_cons_False by (intros Hc; by apply Hc).
      by rewrite filter_app, Hfm, filter_cons_True by done. }
    rewrite (inversions_rec_move _ m v)
      by (intros Hx; apply Hvm, elem_of_app; by left).
    by replace (Z.of_nat (length m)) with (Z.abs (t - bp) - 1) by lia.
Qed.

Lemma adjacent_offset n bp t :
  0 < n → adjacent n bp t →
  (Z.abs (t - bp) = 1 ∧ t `div` n = bp `div` n) ∨
  (Z.abs (t - bp) = n ∧ Z.abs (t `div` n - bp `div` n) = 1).
Proof.
  intros Hn (Hbp & Ht & Hadj).
  rewrite (Z.div_mod bp n), (Z.div_mod t n) by lia.
  pose proof (Z.mod_pos_bound bp n Hn). pose proof (Z.mod_pos_bound t n Hn).
  set (r := bp `div` n) in *. set (c := bp `mod` n) in *.
  set (r' := t `div` n) in *. set (c' := t `mod` n) in *.
  destruct (div_mod_cell n r c) as [Hd1 _]; [done..|].
  destruct (div_mod_cell n r' c') as [Hd2 _]; [done..|].
  replace (n * r + c) with (r * n + c) by lia.
  replace (n * r' + c') with (r' * n + c') by lia.
  rewrite Hd1, Hd2.
  destruct (decide (r = r')) as [->|Hr]; [left; lia|right].
  assert (c = c') as -> by lia.
  split; [|lia]. nia.
Qed.

Lemma slide_solvable n items bp t :
  2 ≤ n → items ≡ₚ seqZ 1 (n * n) →
  0 ≤ bp → items !! Z.to_nat bp = Some (n * n) →
  adjacent n bp t → t ≠ bp →
  is_solvable (slide n items bp t) = is_solvable items.
Proof.
  intros Hn Hperm Hbp Hb Hadj Hne.
  assert (NoDup items) as Hnd by (rewrite Hperm; apply NoDup_seqZ).
  assert (len items = n * n) as Hlen.
  { unfold len. rewrite Hperm, length_seqZ. nia. }
  assert (0 ≤ t < n * n) as Ht by (unfold adjacent in Hadj; lia).
  assert (is_Some (items !! Z.to_nat t)) as Hsome.
  { apply lookup_lt_is_Some_2. unfold len in Hlen. lia. }
  pose proof (slide_perm n items bp t Hbp (proj1 Ht) Hne Hb Hsome) as Hperm'.
  destruct (slide_swapped n items bp t Hbp (proj1 Ht) Hne Hb Hsome)
    as (_ & _ & _ & Hlen' & _ & Hj & _).
  rewrite Hb in Hj.
  rewrite (is_solvable_run n items (Z.to_nat bp)); [|lia|done|]; last first.
  { by apply index_lookup. }
  rewrite (is_solvable_run n (slide n items bp t) (Z.to_nat t));
    [|lia| |]; last first.
  { apply index_lookup; [by rewrite Hperm'|done]. }
  { unfold len in *. by rewrite Hlen'. }
  cbv zeta.
  rewrite (slide_inversions_parity n items bp t) by (done || lia).
  rewrite !Z2Nat.id by lia.
  set (e := Z.even (Z.of_nat (inversions_spec (without_blank n items)))).
  destruct (adjacent_offset n bp t ltac:(lia) Hadj) as [[Habs Hrow]|[Habs Hrow]];
    rewrite Habs.
  - rewrite Hrow. simpl. by rewrite xorb_false_r.
  - replace (n - 1) with (Z.pred n) by lia. rewrite Z.odd_pred.
    destruct (Z.odd n) eqn:Hodd.
    + rewrite <- Z.negb_odd, Hodd. simpl. by rewrite xorb_false_r.
    + rewrite <- Z.negb_odd, Hodd. simpl.
      assert (Z.odd (n - t `div` n) = negb (Z.odd (n - bp `div` n))) as ->.
      { destruct (decide (t `div` n = bp `div` n + 1)) as [->|].
        - replace (n - (bp `div` n + 1)) with (Z.pred (n - bp `div` n)) by lia.
          by rewrite Z.odd_pred, Z.negb_odd.
        - replace (n - t `div` n) with (Z.succ (n - bp `div` n)) by lia.
          by rewrite Z.odd_succ, Z.negb_odd. }
      clearbody e. destruct (Z.odd (n - bp `div` n)); destruct e; reflexivity.
Qed.
End MoveInvariance.

(** X25.  [is_solvable] gives the same answer on the tiles of every successor as on
    the tiles of the valid state they come from. *)
Theorem is_solvable_successor h state n tl items bp :
  valid_state h state n tl items bp →
  ∃ succs h',
    get_successors state h = (Ok succs, h') ∧
    ∀ s', s' ∈ succs →
      ∃ st tl' items',
        h' !! s' = Some (StateObj st) ∧ tile_list st = Some tl' ∧
        h' !! tl' = Some (ListObj items') ∧
        is_solvable items' = is_solvable items.
Proof.
  intros Hv.
  destruct (get_successors_spec Hv) as (news & h' & Hrun & _ & _ & Hall).
  exists news.*1, h'. split; [done|].
  intros s' Hs'. apply list_elem_of_fmap in Hs' as (p & -> & Hp).
  apply list_elem_of_lookup in Hp as [i Hi].
  destruct (Forall2_lookup_l _ _ _ _ _ Hall Hi) as (t & Ht & _ & _ & Hs & Hl).
  apply list_elem_of_lookup_2 in Ht.
  apply list_elem_of_omap in Ht as (d & Hd & Ht).
  pose proof (valid_bp_range Hv) as Hbp.
  pose proof (valid_size _ _ _ _ _ _ Hv) as Hn.
  destruct (target_adjacent n bp d t) as [Hadj Hne]; [lia | done..|].
  eexists _, p.2, _. split_and!; [done | done | done |].
  apply slide_solvable; [done | apply Hv | lia | apply Hv | done..].
Qed.

Lemma is_solvable_successor_witness :
  ∃ succs h',
    get_successors 1%nat store2 = (Ok succs, h') ∧
    ∀ s', s' ∈ succs →
      ∃ st tl' items',
        h' !! s' = Some (StateObj st) ∧ tile_list st = Some tl' ∧
        h' !! tl' = Some (ListObj items') ∧
        is_solvable items' = is_solvable [1; 2; 3; 4].
Proof.
  apply (is_solvable_successor store2 1%nat 2 0%nat [1; 2; 3; 4] 3).
  split; [reflexivity | reflexivity | lia | reflexivity | lia | reflexivity].
Defined.

(** X26.  Any sequence of moves from a valid state, each by [get_successors],
    ends in a valid state of the same width on whose tiles [is_solvable]
    answers as on the first; so every board reached from the goal ordering
    is reported solvable. *)
Theorem is_solvable_reachable h s n tl items bp h' s' :
  valid_state h s n tl items bp → reachable h s h' s' →
  ∃ tl' items' bp',
    valid_state h' s' n tl' items' bp' ∧
    is_solvable items' = is_solvable items ∧
    (items = seqZ 1 (n * n) → is_solvable items' = Ok true).
Proof.
  intros Hv Hreach.
  assert (∃ tl' items' bp',
            valid_state h' s' n tl' items' bp' ∧
            is_solvable items' = is_solvable items)
    as (tl' & items' & bp' & Hv' & Hs).
  { induction Hreach as [|h1 s1 succs h2 s2 _ IH Hrun Hin].
    - by exists tl, items, bp.
    - destruct IH as (tl1 & items1 & bp1 & Hv1 & Hs1).
      destruct (get_successors_spec Hv1) as (news & h' & Hrun' & _ & _ & Hall).
      rewrite Hrun in Hrun'. injection Hrun' as -> ->.
      apply list_elem_of_fmap in Hin as (p & -> & Hp).
      apply list_elem_of_lookup in Hp as [i Hi].
      destruct (Forall2_lookup_l _ _ _ _ _ Hall Hi) as (t & Ht & Hat).
      apply list_elem_of_lookup_2 in Ht.
      apply list_elem_of_omap in Ht as (d & Hd & Ht).
      pose proof (valid_bp_range Hv1) as Hbp.
      pose proof (valid_size _ _ _ _ _ _ Hv1) as Hn.
      destruct (target_adjacent n bp1 d t) as [Hadj Hne]; [lia | done..|].
      exists p.2, (slide n items1 bp1 t), t. split.
      + by eapply successor_valid.
      + rewrite <- Hs1.
        apply slide_solvable; [done | apply Hv1 | lia | apply Hv1 | done..]. }
  exists tl', items', bp'. split_and!; [done | done |].
  intros ->. rewrite Hs. apply is_solvable_seqZ. apply Hv.
Qed.

Lemma is_solvable_reachable_witness :
  ∃ tl' items' bp',
    valid_state (get_successors 1%nat store2).2 2%nat 2 tl' items' bp' ∧
    is_solvable items' = is_solvable [1; 2; 3; 4] ∧
    ([1; 2; 3; 4] = seqZ 1 (2 * 2) → is_solvable items' = Ok true).
Proof.
  apply (is_solvable_reachable store2 1%nat 2 0%nat [1; 2; 3; 4] 3).
  - split; [reflexivity | reflexivity | lia | reflexivity | lia | reflexivity].
  - apply (reach_move store2 1%nat store2 1%nat [2%nat; 4%nat]).
    + apply reach_here.
    + vm_compute. reflexivity.
    + left.
Defined.

(** X27.  On every list, the nested loops of [is_solvable] count the pairs of
    positions [i < j] of the list without the value [len(tile_list)] whose
    entries are out of order. *)
Theorem count_inversions_spec tiles :
  count_inversions (puzzle_except_empty tiles) =
    Z.of_nat (inversions_spec (filter (λ v, v ≠ len tiles) tiles)).
Proof.
  by rewrite count_inversions_rec, puzzle_except_empty_values,
    inversions_spec_rec.
Qed.

Lemma massive_test_unprintable_error_witness :
  let lines1 := ["1 2 3 4"%string; EmptyString] in
  let line := "2 1 3 4"%string in
  let lines2 := ["1 2 3 4"%string] in
  let s := (bind new_stat
              (λ _, run_tasks 0 demo_unprintable demo_blank demo_parse 0 lines1)
              demo_harness).2 in
  let h := (prepare [2; 1; 3; 4] (store s)).2 in
  massive_test Z 0 demo_unprintable demo_blank demo_parse
               (lines1 ++ line :: lines2) demo_harness =
    (Raise TypeError, mkHarness h [5] [9] [7] []).
Proof.
  intros lines1 line lines2 s h.
  apply (massive_test_unprintable_error 0 demo_unprintable demo_blank
           demo_parse lines1 line lines2 demo_harness s [2; 1; 3; 4]
           6%nat 7%nat h (OtherException "SearchError" (Some TypeError))
           TypeError h);
    vm_compute; reflexivity.
Defined.
